(** * Teacup firmware, [dda_maths.c]: integer kernels of the DDA

    A shallow embedding of the integer routines of [dda_maths.c] over [Z].
    Every C object of a fixed width is a [Z] together with the reduction
    that an assignment to that width performs: unsigned types wrap modulo
    [2^w], signed 32-bit arithmetic wraps in two's complement and a right
    shift of a signed value is arithmetic (the reading CompCert gives to C,
    and what the AVR and ARM compilers the firmware is built with produce
    where the standard leaves the result open).  A division by zero has no
    result. *)

From Stdlib Require Import ZArith Lia Bool Reals Lra.

Local Open Scope Z_scope.

(** ** Fixed-width integers *)

Module Width.

Definition u8 (z : Z) : Z := z mod 2 ^ 8.
Definition u16 (z : Z) : Z := z mod 2 ^ 16.
Definition u32 (z : Z) : Z := z mod 2 ^ 32.

(** Two's complement reduction to [int32_t]. *)
Definition i32 (z : Z) : Z := (z + 2 ^ 31) mod 2 ^ 32 - 2 ^ 31.

(** Two's complement reduction to [int64_t]. *)
Definition i64 (z : Z) : Z := (z + 2 ^ 63) mod 2 ^ 64 - 2 ^ 63.

Definition is_u8 (z : Z) : Prop := 0 <= z < 2 ^ 8.
Definition is_u16 (z : Z) : Prop := 0 <= z < 2 ^ 16.
Definition is_u32 (z : Z) : Prop := 0 <= z < 2 ^ 32.
Definition is_i32 (z : Z) : Prop := - 2 ^ 31 <= z < 2 ^ 31.

Definition INT32_MIN : Z := - 2 ^ 31.

End Width.
Import Width.

(** ** [muldivQR] (lines 36-71) *)

(** The variables the loop of [muldivQR] reads and writes. *)
Record mdstate : Type := MdState {
  multiplicand : Z;   (* int32_t *)
  qn : Z;             (* uint32_t *)
  rn : Z;             (* uint32_t *)
  quotient : Z;       (* uint32_t *)
  remainder : Z       (* uint32_t *)
}.

(** [if (r >= divisor) { q++; r -= divisor; }], which the loop body does to
    [quotient] and [remainder] (lines 51-54) and to [qn] and [rn]
    (lines 59-62). *)
Definition carry (divisor q r : Z) : Z * Z :=
  if r >=? divisor then (u32 (q + 1), u32 (r - divisor)) else (q, r).

(** One pass through the body of [while (multiplicand) { ... }]. *)
Definition muldivQR_step (divisor : Z) (s : mdstate) : mdstate :=
  let acc :=
    if negb (Z.land (multiplicand s) 1 =? 0) then
      carry divisor (u32 (quotient s + qn s)) (u32 (remainder s + rn s))
    else (quotient s, remainder s) in
  let dbl :=
    carry divisor (u32 (Z.shiftl (qn s) 1)) (u32 (Z.shiftl (rn s) 1)) in
  {| multiplicand := Z.shiftr (multiplicand s) 1;
     qn := fst dbl;
     rn := snd dbl;
     quotient := fst acc;
     remainder := snd acc |}.

(** The [while] loop.  Nothing in the source bounds the number of
    iterations, so the model takes fuel and answers [None] when the fuel is
    used up before [multiplicand] is zero. *)
Fixpoint muldivQR_loop (fuel : nat) (divisor : Z) (s : mdstate)
  : option mdstate :=
  if multiplicand s =? 0 then Some s
  else match fuel with
       | O => None
       | S fuel' => muldivQR_loop fuel' divisor (muldivQR_step divisor s)
       end.

(** The state on entry to the loop: the sign is split off, the accumulators
    are zero. *)
Definition muldivQR_init (multiplicand qn rn : Z) : mdstate :=
  let multiplicand1 :=
    if multiplicand <? 0 then i32 (- multiplicand) else multiplicand in
  MdState multiplicand1 qn rn 0 0.

(** Rounding and reapplication of the sign (lines 65-70). *)
Definition muldivQR_finish (negative_flag : bool) (divisor : Z) (s : mdstate)
  : Z :=
  let quotient1 :=
    if remainder s >? divisor / 2 then u32 (quotient s + 1) else quotient s in
  if negative_flag then i32 (- i32 quotient1) else i32 quotient1.

Definition muldivQR (fuel : nat) (multiplicand qn rn divisor : Z) : option Z :=
  let negative_flag := multiplicand <? 0 in
  match muldivQR_loop fuel divisor (muldivQR_init multiplicand qn rn) with
  | Some s => Some (muldivQR_finish negative_flag divisor s)
  | None => None
  end.

(** Reference: the integer nearest to [n / d] for [0 <= n], a tie going to
    the lower neighbour; and its signed version. *)
Definition round_div (n d : Z) : Z := (n + (d - 1) / 2) / d.

Definition muldiv_exact (m multiplier divisor : Z) : Z :=
  Z.sgn m * round_div (Z.abs m * multiplier) divisor.

(** ** [approx_distance] (lines 81-101) *)

Definition approx_distance (dx dy : Z) : Z :=
  if (dx =? 0) || (dy =? 0) then u32 (dx + dy)
  else
    let '(min, max) := if dx <? dy then (dx, dy) else (dy, dx) in
    let approx := u32 (u32 (max * 1007) + u32 (min * 441)) in
    let approx :=
      if max <? u32 (Z.shiftl min 4) then u32 (approx - u32 (max * 40))
      else approx in
    Z.shiftr (u32 (approx + 512)) 10.

(** ** [approx_distance_3] (lines 112-141) *)

(** What the two comparisons (lines 115-132) leave in [min], [med] and
    [max]. *)
Definition approx_distance_3_ranks (dx dy dz : Z) : Z * Z * Z :=
  let '(min, med) := if dx <? dy then (dy, dx) else (dx, dy) in
  if dz <? min then (dz, min, med)
  else if dz <? med then (min, dz, med)
  else (min, med, dz).

Definition approx_distance_3 (dx dy dz : Z) : Z :=
  let '(min, med, max) := approx_distance_3_ranks dx dy dz in
  let approx :=
    u32 (u32 (u32 (max * 860) + u32 (med * 851)) + u32 (min * 520)) in
  let approx :=
    if max <? u32 (Z.shiftl med 1) then u32 (approx - u32 (max * 294))
    else approx in
  let approx :=
    if max <? u32 (Z.shiftl min 2) then u32 (approx - u32 (max * 113))
    else approx in
  let approx :=
    if med <? u32 (Z.shiftl min 2) then u32 (approx - u32 (med * 40))
    else approx in
  Z.shiftr (u32 (approx + 512)) 10.

(** ** The bit-by-bit searches of [int_sqrt] and [int_inv_sqrt] *)

(** [for (i = start; i; i >>= 1) body]: the loop variable is an unsigned
    object of [width] bits, so it is zero after at most [width] shifts. *)
Fixpoint for_shr (width : nat) (i : Z) (body : Z -> Z -> Z) (x : Z) : Z :=
  match width with
  | O => x
  | S width' =>
      if i =? 0 then x
      else for_shr width' (Z.shiftr i 1) body (body i x)
  end.

(** The body shared by the five loops:
    [x |= i; y = x * x; if (y > target) x ^= i;]
    with [x] an object reduced by [xw] and [y] one reduced by [yw]. *)
Definition try_bit (xw yw : Z -> Z) (target : Z) (i x : Z) : Z :=
  let x1 := xw (Z.lor x i) in
  let y := yw (x1 * x1) in
  if y >? target then xw (Z.lxor x1 i) else x1.

(** ** [int_sqrt] (lines 151-189) *)

Definition int_sqrt (a : Z) : Z :=
  let b := u16 (Z.shiftr a 16) in
  let c := u8 (Z.shiftr b 8) in
  let z := for_shr 8 8 (try_bit u8 u8 c) 0 in
  let x := u16 (Z.shiftl z 4) in
  let x := for_shr 16 8 (try_bit u16 u16 b) x in
  let x := u16 (Z.shiftl x 8) in
  for_shr 16 128 (try_bit u16 u32 a) x.

(** ** [int_inv_sqrt] (lines 198-227) *)

(** [0xFFFFU / a] divides by zero for [a = 0], which the C standard leaves
    undefined: no result in the model. *)
Definition int_inv_sqrt_q (a : Z) : Z := u32 (Z.shiftl (u32 (65535 / a)) 8).

Definition int_inv_sqrt (a : Z) : option Z :=
  if a =? 0 then None
  else
    let q := int_inv_sqrt_q a in
    let z := for_shr 8 128 (try_bit u8 u16 (Z.shiftr q 8)) 0 in
    let x := u16 (Z.shiftl z 4) in
    Some (for_shr 16 8 (try_bit u16 u32 q) x).

(** ** [acc_ramp_len] (lines 258-261) *)

Section RampLength.

(** [ACCELERATION] is a build-time constant of the configuration, which
    this file does not define. *)
Variable ACCELERATION : Z.

(** Either division is by zero for some arguments ([steps_per_m = 0], or
    [steps_per_m] above the scaled acceleration): no result. *)
Definition acc_ramp_len (feedrate steps_per_m : Z) : option Z :=
  if steps_per_m =? 0 then None
  else
    let den := u32 (7200000 * ACCELERATION) / steps_per_m in
    if den =? 0 then None
    else Some (u32 (feedrate * feedrate) / den).

End RampLength.

(** ** [int_sqr] (lines 266-268) *)

(** [a * a] is a product of two [int32_t], formed in 32 bits; only its value
    is widened to the [int64_t] that is returned. *)
Definition int_sqr (a : Z) : Z := i64 (i32 (a * a)).


(** ** [msbloc] (lines 235-244) *)

(** [for (i = 31, c = 0x80000000; i; i--) { if (v & c) return i; c >>= 1; }
    return 0;], by recursion on the counter [i]. *)
Fixpoint msbloc_loop (i : nat) (c v : Z) : Z :=
  match i with
  | O => 0
  | S i' =>
      if negb (Z.land v c =? 0) then u8 (Z.of_nat i)
      else msbloc_loop i' (Z.shiftr c 1) v
  end.

Definition msbloc (v : Z) : Z := msbloc_loop 31 2147483648 v.

(** ** Predicates of the proofs *)

(** [x] is the root of [t] as far as it is known once the bits from [k]
    up are decided: a multiple of [2^k] with [x^2 <= t < (x + 2^k)^2]. *)
Definition approx_root (k t x : Z) : Prop :=
  0 <= x /\ x mod 2 ^ k = 0 /\ x * x <= t < (x + 2 ^ k) * (x + 2 ^ k).

(** Both remainders of [muldivQR] are reduced. *)
Definition md_bounded (divisor : Z) (s : mdstate) : Prop :=
  0 <= rn s < divisor /\ 0 <= remainder s < divisor.

(** What is accumulated and what is left to add make up the product [P]
    of the multiplier and the magnitude of the multiplicand. *)
Definition md_inv (divisor P : Z) (s : mdstate) : Prop :=
  0 <= multiplicand s /\ 0 <= qn s /\ 0 <= quotient s /\
  md_bounded divisor s /\
  quotient s * divisor + remainder s
    + multiplicand s * (qn s * divisor + rn s) = P.

(** The weighted sum of [approx_distance] before the rounding shift, for
    [1 <= min <= max], were no product or sum to leave 32 bits. *)
Definition approx_distance_sum (min max : Z) : Z :=
  if max <? 16 * min then 967 * max + 441 * min else 1007 * max + 441 * min.

(** The same for [approx_distance_3], on what is in [min], [med] and
    [max] after the comparisons. *)
Definition approx_distance_3_sum (min med max : Z) : Z :=
  860 * max + 851 * med + 520 * min
  - (if max <? 2 * med then 294 * max else 0)
  - (if max <? 4 * min then 113 * max else 0)
  - (if med <? 4 * min then 40 * med else 0).

Definition approx_distance_3_of_ranks (r : Z * Z * Z) : Z :=
  let '(min, med, max) := r in
  (approx_distance_3_sum min med max + 512) / 1024.

(** * Properties *)

(** ** Reductions to a width *)

(** Side conditions that say a value lies in the range of a type. *)
Ltac in_range :=
  unfold is_u8, is_u16, is_u32, is_i32, INT32_MIN in *; lia.

Lemma u32_small (z : Z) : is_u32 z -> u32 z = z.
Proof. unfold is_u32, u32. intros H. apply Z.mod_small. exact H. Qed.

Lemma u16_small (z : Z) : is_u16 z -> u16 z = z.
Proof. unfold is_u16, u16. intros H. apply Z.mod_small. exact H. Qed.

Lemma u8_small (z : Z) : is_u8 z -> u8 z = z.
Proof. unfold is_u8, u8. intros H. apply Z.mod_small. exact H. Qed.

Lemma u32_range (z : Z) : is_u32 (u32 z).
Proof. unfold is_u32, u32. apply Z.mod_pos_bound. lia. Qed.

Lemma i32_small (z : Z) : is_i32 z -> i32 z = z.
Proof.
  unfold is_i32, i32. intros H.
  rewrite Z.mod_small; lia.
Qed.

Lemma i64_small (z : Z) : - 2 ^ 63 <= z < 2 ^ 63 -> i64 z = z.
Proof.
  unfold i64. intros H.
  rewrite Z.mod_small; lia.
Qed.

(** ** [approx_distance] *)

(** C9: when one of the two inputs is zero, [approx_distance] returns
    exactly [dx + dy], the other input; [approx_distance(0, 7) = 7]. *)
Theorem approx_distance_zero_axis (dx dy : Z) :
  is_u32 dx -> is_u32 dy -> dx = 0 \/ dy = 0 ->
  approx_distance dx dy = dx + dy /\ approx_distance 0 7 = 7.
Proof.
  intros Hx Hy Hz. split; [|reflexivity].
  unfold approx_distance.
  assert (Hb : (dx =? 0) || (dy =? 0) = true).
  { destruct Hz as [-> | ->]; [reflexivity | apply orb_true_r]. }
  rewrite Hb. apply u32_small.
  unfold is_u32 in *. destruct Hz; subst; lia.
Qed.

Lemma approx_distance_zero_axis_witness :
  (is_u32 0 /\ is_u32 7 /\ (0 = 0 \/ 7 = 0)) /\
  approx_distance 0 7 = 0 + 7 /\ approx_distance 0 7 = 7.
Proof.
  assert (H0 : is_u32 0) by in_range.
  assert (H7 : is_u32 7) by in_range.
  assert (Hz : 0 = 0 \/ 7 = 0) by (left; reflexivity).
  split; [exact (conj H0 (conj H7 Hz))|].
  apply (approx_distance_zero_axis 0 7 H0 H7 Hz).
Defined.

(** C10: [approx_distance] does not depend on the order of its two
    arguments. *)
Theorem approx_distance_comm (dx dy : Z) :
  approx_distance dx dy = approx_distance dy dx.
Proof.
  unfold approx_distance.
  rewrite (orb_comm (dx =? 0) (dy =? 0)), (Z.add_comm dx dy).
  destruct ((dy =? 0) || (dx =? 0)); [reflexivity|].
  destruct (Z.ltb_spec dx dy) as [Hlt | Hge];
    destruct (Z.ltb_spec dy dx) as [Hlt' | Hge']; try reflexivity; try lia.
  assert (dx = dy) by lia. subst dy. reflexivity.
Qed.

(** ** [approx_distance_3] *)

(** X8: the first comparison treats [dx] and [dy] alike, so exchanging
    them changes nothing. *)
Lemma approx_distance_3_swap_xy (dx dy dz : Z) :
  approx_distance_3 dx dy dz = approx_distance_3 dy dx dz.
Proof.
  unfold approx_distance_3, approx_distance_3_ranks.
  destruct (Z.ltb_spec dx dy) as [Hlt | Hge];
    destruct (Z.ltb_spec dy dx) as [Hlt' | Hge']; try reflexivity; try lia.
  assert (dx = dy) by lia. subst dy. reflexivity.
Qed.

(** C6: the result of [approx_distance_3] changes with the order of its
    arguments: [(1000, 2000, 3000)] gives 3996 and [(3000, 2000, 1000)]
    gives 3769, because the comparisons do not sort the three inputs: for
    [(1000, 2000, 3000)] they leave [med = 1000] below [min = 2000], and for
    [(3000, 2000, 1000)] they leave [max = 2000] below [med = 3000]. *)
Theorem approx_distance_3_order_dependent :
  approx_distance_3 1000 2000 3000 = 3996 /\
  approx_distance_3 3000 2000 1000 = 3769 /\
  approx_distance_3_ranks 1000 2000 3000 = (2000, 1000, 3000) /\
  approx_distance_3_ranks 3000 2000 1000 = (1000, 3000, 2000).
Proof. repeat split; reflexivity. Qed.

(** ** [int_sqr] *)

(** Below the square root of [2^31] the 32-bit product is the square. *)
Lemma int_sqr_small (a : Z) : - 46340 <= a <= 46340 -> int_sqr a = a * a.
Proof.
  intros H. unfold int_sqr.
  assert (Hsq : 0 <= a * a <= 46340 * 46340) by nia.
  rewrite i32_small by (unfold is_i32; lia).
  apply i64_small. lia.
Qed.

(** C5: [int_sqr] multiplies in 32 bits and widens afterwards, so the
    square is lost as soon as it passes [2^31]: [int_sqr(65536)] is 0, not
    [2^32], and [int_sqr(200000)], the square the Scara note above
    [getPhiTheta] wants, is 1345294336, not 40000000000. *)
Theorem int_sqr_overflows :
  int_sqr 65536 = 0 /\ 65536 * 65536 = 4294967296 /\
  int_sqr 200000 = 1345294336 /\ 200000 * 200000 = 40000000000 /\
  is_i32 65536 /\ is_i32 200000.
Proof. unfold is_i32. repeat split; try reflexivity; lia. Qed.

(** ** [acc_ramp_len] *)

(** C7, as stated, fails: with [ACCELERATION = 100] and 80000 steps/m (a
    divisor of 9000) the ramp for a feedrate of 65535 has 477204 steps and
    the one for 65536 has none, since [feedrate * feedrate] wraps to 0 in
    32 bits. *)
Lemma acc_ramp_len_not_monotone :
  is_u32 65535 /\ is_u32 65536 /\ 65535 <= 65536 /\
  acc_ramp_len 100 65535 80000 = Some 477204 /\
  acc_ramp_len 100 65536 80000 = Some 0 /\
  ~ 477204 <= 0.
Proof. unfold is_u32. repeat split; try reflexivity; lia. Qed.

(** C7, amended: for feedrates whose square fits in 32 bits (below
    [2^16]), [acc_ramp_len] is non-decreasing in the feedrate: whenever it
    has a result for [f1], it has one for every [f2] from [f1] up to 65535,
    and that one is not smaller. *)
Theorem acc_ramp_len_monotone (ACCELERATION f1 f2 steps_per_m r1 : Z) :
  is_u32 steps_per_m ->
  0 <= f1 <= f2 -> f2 < 2 ^ 16 ->
  acc_ramp_len ACCELERATION f1 steps_per_m = Some r1 ->
  exists r2, acc_ramp_len ACCELERATION f2 steps_per_m = Some r2 /\ r1 <= r2.
Proof.
  unfold acc_ramp_len, is_u32. intros Hs Hf Hf2.
  destruct (Z.eqb_spec steps_per_m 0) as [|Hs0]; [discriminate|].
  set (den := u32 (7200000 * ACCELERATION) / steps_per_m).
  destruct (Z.eqb_spec den 0) as [|Hd0]; [discriminate|].
  intros [= <-]. eexists. split; [reflexivity|].
  assert (Hden : 0 < den).
  { assert (0 <= den); [|lia].
    apply Z.div_pos; [|lia].
    apply (u32_range (7200000 * ACCELERATION)). }
  assert (Hsq1 : 0 <= f1 * f1 <= f2 * f2) by nia.
  assert (Hsq2 : f2 * f2 < 2 ^ 32) by nia.
  rewrite !u32_small by (unfold is_u32; lia).
  apply Z.div_le_mono; lia.
Qed.

Lemma acc_ramp_len_monotone_witness :
  (is_u32 80000 /\ 0 <= 2999 <= 3000 /\ 3000 < 2 ^ 16 /\
   acc_ramp_len 100 2999 80000 = Some 999) /\
  exists r2, acc_ramp_len 100 3000 80000 = Some r2 /\ 999 <= r2.
Proof.
  assert (Hs : is_u32 80000) by in_range.
  assert (Hf : 0 <= 2999 <= 3000) by lia.
  assert (Hb : 3000 < 2 ^ 16) by lia.
  assert (Hr : acc_ramp_len 100 2999 80000 = Some 999) by reflexivity.
  split; [exact (conj Hs (conj Hf (conj Hb Hr)))|].
  apply (acc_ramp_len_monotone 100 2999 3000 80000 999 Hs Hf Hb Hr).
Defined.

(** ** The bit-by-bit searches *)

(** *** Setting and clearing one aligned bit *)

Lemma land_pow2_aligned (k x : Z) :
  0 <= k -> x mod 2 ^ (k + 1) = 0 -> Z.land x (2 ^ k) = 0.
Proof.
  intros Hk Hx. apply Z.bits_inj'. intros n Hn.
  rewrite Z.land_spec, Z.bits_0, Z.pow2_bits_eqb by lia.
  destruct (Z.eqb_spec k n) as [<- | Hne]; [|apply andb_false_r].
  rewrite <- (Z.mod_pow2_bits_low x (k + 1) k) by lia.
  rewrite Hx, Z.bits_0. reflexivity.
Qed.

Lemma lor_pow2_aligned (k x : Z) :
  0 <= k -> x mod 2 ^ (k + 1) = 0 -> Z.lor x (2 ^ k) = x + 2 ^ k.
Proof.
  intros Hk Hx.
  pose proof (Z.add_lor_land x (2 ^ k)) as H.
  rewrite (land_pow2_aligned k x Hk Hx) in H. lia.
Qed.

Lemma lxor_pow2_set (k x : Z) :
  0 <= k -> x mod 2 ^ (k + 1) = 0 -> Z.lxor (x + 2 ^ k) (2 ^ k) = x.
Proof.
  intros Hk Hx.
  rewrite <- (lor_pow2_aligned k x Hk Hx).
  rewrite <- (Z.lxor_lor x (2 ^ k)) by (apply land_pow2_aligned; assumption).
  rewrite Z.lxor_assoc, Z.lxor_nilpotent, Z.lxor_0_r. reflexivity.
Qed.

Lemma mod_pow2_half (k x : Z) :
  0 <= k -> x mod 2 ^ (k + 1) = 0 -> x mod 2 ^ k = 0.
Proof.
  intros Hk Hx.
  apply Z.mod_divide in Hx; [|lia]. destruct Hx as [h Hh].
  rewrite Hh, Z.pow_add_r, Z.pow_1_r by lia.
  replace (h * (2 ^ k * 2)) with (h * 2 * 2 ^ k) by ring.
  apply Z.mod_mul. lia.
Qed.

Lemma mod_pow2_add_half (k x : Z) :
  0 <= k -> x mod 2 ^ (k + 1) = 0 -> (x + 2 ^ k) mod 2 ^ k = 0.
Proof.
  intros Hk Hx.
  replace (x + 2 ^ k) with (x + 1 * 2 ^ k) by ring.
  rewrite Z.mod_add by lia. apply mod_pow2_half; assumption.
Qed.

(** *** One loop of the search *)

Section BitSearch.

Variables (xw yw : Z -> Z) (B t : Z).
Hypothesis xw_id : forall v, 0 <= v < B -> xw v = v.
Hypothesis yw_id : forall v, 0 <= v < B -> yw (v * v) = v * v.

Lemma try_bit_refines (k x : Z) :
  0 <= k -> x + 2 ^ (k + 1) <= B ->
  approx_root (k + 1) t x ->
  let x' := try_bit xw yw t (2 ^ k) x in
  approx_root k t x' /\ x' + 2 ^ k <= B.
Proof.
  intros Hk HB (Hx0 & Hal & Hlo & Hhi). cbv zeta.
  assert (Hp : 0 < 2 ^ k) by (apply Z.pow_pos_nonneg; lia).
  assert (Hp2 : 2 ^ (k + 1) = 2 * 2 ^ k)
    by (rewrite Z.pow_add_r, Z.pow_1_r by lia; ring).
  unfold try_bit.
  rewrite (lor_pow2_aligned k x Hk Hal).
  rewrite (xw_id (x + 2 ^ k)) by lia.
  rewrite (yw_id (x + 2 ^ k)) by lia.
  destruct (Z.gtb_spec ((x + 2 ^ k) * (x + 2 ^ k)) t) as [Hgt | Hle].
  - rewrite (lxor_pow2_set k x Hk Hal), (xw_id x) by lia.
    split; [|lia].
    repeat split; try lia. apply mod_pow2_half; assumption.
  - split; [|lia].
    repeat split; try lia.
    apply mod_pow2_add_half; assumption.
Qed.

Lemma for_shr_try_bit_root (k width : nat) (x : Z) :
  (k < width)%nat ->
  x + 2 ^ (Z.of_nat k + 1) <= B ->
  approx_root (Z.of_nat k + 1) t x ->
  approx_root 0 t (for_shr width (2 ^ Z.of_nat k) (try_bit xw yw t) x).
Proof.
  revert width x. induction k as [|k IH]; intros width x Hw HB Hroot.
  - destruct width as [|width]; [lia|].
    cbn [for_shr]. change (2 ^ Z.of_nat 0) with 1.
    change (1 =? 0) with false. cbv iota.
    change (Z.shiftr 1 1) with 0.
    assert (Hafter : forall w v, for_shr w 0 (try_bit xw yw t) v = v)
      by (intros [|w] v; reflexivity).
    rewrite Hafter.
    apply (try_bit_refines 0 x); [lia | exact HB | exact Hroot].
  - destruct width as [|width]; [lia|].
    cbn [for_shr].
    assert (Hp : 0 < 2 ^ Z.of_nat (S k)) by (apply Z.pow_pos_nonneg; lia).
    destruct (Z.eqb_spec (2 ^ Z.of_nat (S k)) 0) as [H0 | _]; [lia|].
    assert (Hsh : Z.shiftr (2 ^ Z.of_nat (S k)) 1 = 2 ^ Z.of_nat k).
    { rewrite Z.shiftr_div_pow2 by lia.
      rewrite Nat2Z.inj_succ, Z.pow_succ_r by lia.
      change (2 ^ 1) with 2. rewrite Z.mul_comm. apply Z.div_mul. lia. }
    rewrite Hsh.
    destruct (try_bit_refines (Z.of_nat (S k)) x) as [Hr Hb];
      [lia | exact HB | exact Hroot |].
    replace (Z.of_nat (S k)) with (Z.of_nat k + 1) in * by lia.
    apply IH; [lia | exact Hb | exact Hr].
Qed.

End BitSearch.

(** *** Between the loops *)

Lemma approx_root_0_bound (t x B : Z) :
  approx_root 0 t x -> 0 <= B -> t < B * B -> 0 <= x < B.
Proof.
  unfold approx_root. intros (Hx & _ & Hlo & _) HB Ht. split; [exact Hx|]. nia.
Qed.

(** From the root of [t / 4^n] to the first approximation of the root of
    [t] that the next loop starts from. *)
Lemma approx_root_widen (n t x : Z) :
  0 <= n -> 0 <= t ->
  approx_root 0 (t / 2 ^ (2 * n)) x -> approx_root n t (x * 2 ^ n).
Proof.
  unfold approx_root. intros Hn Ht (Hx & _ & Hlo & Hhi).
  assert (Hp : 0 < 2 ^ n) by (apply Z.pow_pos_nonneg; lia).
  assert (Hpp : 2 ^ (2 * n) = 2 ^ n * 2 ^ n)
    by (rewrite <- Z.pow_add_r by lia; f_equal; lia).
  rewrite Hpp in Hlo, Hhi.
  change (2 ^ 0) with 1 in Hhi.
  set (p := 2 ^ n) in *.
  pose proof (Z.div_mod t (p * p)) as Hdm.
  pose proof (Z.mod_pos_bound t (p * p)) as Hmb.
  set (c := t / (p * p)) in *. set (r := t mod (p * p)) in *.
  repeat split.
  - nia.
  - apply Z.mod_mul. lia.
  - nia.
  - nia.
Qed.

(** *** The widths are wide enough *)

Lemma u8_id_below (B : Z) : B <= 2 ^ 8 -> forall v, 0 <= v < B -> u8 v = v.
Proof. intros HB v Hv. apply u8_small. unfold is_u8. lia. Qed.

Lemma u16_id_below (B : Z) : B <= 2 ^ 16 -> forall v, 0 <= v < B -> u16 v = v.
Proof. intros HB v Hv. apply u16_small. unfold is_u16. lia. Qed.

Lemma u8_sq_below (v : Z) : 0 <= v < 16 -> u8 (v * v) = v * v.
Proof. intros Hv. apply u8_small. unfold is_u8. nia. Qed.

Lemma u16_sq_below (v : Z) : 0 <= v < 256 -> u16 (v * v) = v * v.
Proof. intros Hv. apply u16_small. unfold is_u16. nia. Qed.

Lemma u32_sq_below (v : Z) : 0 <= v < 65536 -> u32 (v * v) = v * v.
Proof. intros Hv. apply u32_small. unfold is_u32. nia. Qed.

Lemma u32_sq_below_4096 (v : Z) : 0 <= v < 4096 -> u32 (v * v) = v * v.
Proof. intros Hv. apply u32_sq_below. lia. Qed.

Lemma approx_root_start (k t : Z) :
  0 <= k -> 0 <= t < 2 ^ k * 2 ^ k -> approx_root k t 0.
Proof.
  intros Hk Ht. unfold approx_root. repeat split; try lia.
Qed.

(** ** [int_sqrt] *)

Lemma int_sqrt_root (a : Z) : is_u32 a -> approx_root 0 a (int_sqrt a).
Proof.
  unfold is_u32. intros Ha. unfold int_sqrt.
  set (b := u16 (Z.shiftr a 16)).
  assert (Hb : b = a / 2 ^ 16).
  { unfold b. rewrite Z.shiftr_div_pow2 by lia. apply u16_small.
    unfold is_u16. split; [apply Z.div_pos; lia|].
    apply Z.div_lt_upper_bound; lia. }
  assert (Hbr : 0 <= b < 2 ^ 16).
  { rewrite Hb. split; [apply Z.div_pos; lia|].
    apply Z.div_lt_upper_bound; lia. }
  set (c := u8 (Z.shiftr b 8)).
  assert (Hc : c = b / 2 ^ 8).
  { unfold c. rewrite Z.shiftr_div_pow2 by lia. apply u8_small.
    unfold is_u8. split; [apply Z.div_pos; lia|].
    apply Z.div_lt_upper_bound; lia. }
  assert (Hcr : 0 <= c < 2 ^ 8).
  { rewrite Hc. split; [apply Z.div_pos; lia|].
    apply Z.div_lt_upper_bound; lia. }
  (* the top four bits, against [c] *)
  set (z := for_shr 8 8 (try_bit u8 u8 c) 0).
  assert (Hz : approx_root 0 c z).
  { apply (for_shr_try_bit_root u8 u8 16 c
             (u8_id_below 16 ltac:(lia)) u8_sq_below 3 8 0).
    - lia.
    - reflexivity.
    - apply approx_root_start; lia. }
  assert (Hzr : 0 <= z < 16)
    by (apply (approx_root_0_bound c); [exact Hz | lia | lia]).
  (* the next four, against [b] *)
  set (x1 := u16 (Z.shiftl z 4)).
  assert (Hx1 : x1 = z * 2 ^ 4).
  { unfold x1. rewrite Z.shiftl_mul_pow2 by lia. apply u16_small.
    unfold is_u16. lia. }
  set (x2 := for_shr 16 8 (try_bit u16 u16 b) x1).
  assert (Hx2 : approx_root 0 b x2).
  { apply (for_shr_try_bit_root u16 u16 256 b
             (u16_id_below 256 ltac:(lia)) u16_sq_below 3 16 x1).
    - lia.
    - rewrite Hx1. change (2 ^ (Z.of_nat 3 + 1)) with 16. lia.
    - rewrite Hx1. apply (approx_root_widen 4); [lia | lia |].
      change (2 ^ (2 * 4)) with (2 ^ 8). rewrite <- Hc. exact Hz. }
  assert (Hx2r : 0 <= x2 < 256)
    by (apply (approx_root_0_bound b); [exact Hx2 | lia | lia]).
  (* the low eight, against [a] *)
  set (x3 := u16 (Z.shiftl x2 8)).
  assert (Hx3 : x3 = x2 * 2 ^ 8).
  { unfold x3. rewrite Z.shiftl_mul_pow2 by lia. apply u16_small.
    unfold is_u16. lia. }
  apply (for_shr_try_bit_root u16 u32 65536 a
           (u16_id_below 65536 ltac:(lia)) u32_sq_below 7 16 x3).
  - lia.
  - rewrite Hx3. change (2 ^ (Z.of_nat 7 + 1)) with 256. lia.
  - rewrite Hx3. apply (approx_root_widen 8); [lia | lia |].
    change (2 ^ (2 * 8)) with (2 ^ 16). rewrite <- Hb. exact Hx2.
Qed.

(** C2: for every unsigned 32-bit [a], [x = int_sqrt a] satisfies
    [x * x <= a < (x + 1) * (x + 1)], the squares taken in [Z]; and
    [int_sqrt] maps 0 to 0, 1 to 1, 99 to 9 and 4294836225 to 65535. *)
Theorem int_sqrt_floor (a : Z) :
  is_u32 a ->
  (int_sqrt a * int_sqrt a <= a /\ a < (int_sqrt a + 1) * (int_sqrt a + 1)) /\
  int_sqrt 0 = 0 /\ int_sqrt 1 = 1 /\ int_sqrt 99 = 9 /\
  int_sqrt 4294836225 = 65535.
Proof.
  intros Ha. split; [|repeat split; vm_compute; reflexivity].
  destruct (int_sqrt_root a Ha) as (_ & _ & Hlo & Hhi).
  change (2 ^ 0) with 1 in Hhi. split; assumption.
Qed.

(** The same, against the square root of the standard library. *)
Corollary int_sqrt_is_Zsqrt (a : Z) : is_u32 a -> int_sqrt a = Z.sqrt a.
Proof.
  intros Ha. destruct (int_sqrt_root a Ha) as (_ & _ & Hlo & Hhi).
  change (2 ^ 0) with 1 in Hhi. symmetry. apply Z.sqrt_unique.
  unfold Z.succ. lia.
Qed.

Lemma int_sqrt_floor_witness :
  is_u32 99 /\
  ((int_sqrt 99 * int_sqrt 99 <= 99 /\
    99 < (int_sqrt 99 + 1) * (int_sqrt 99 + 1)) /\
   int_sqrt 0 = 0 /\ int_sqrt 1 = 1 /\ int_sqrt 99 = 9 /\
   int_sqrt 4294836225 = 65535).
Proof.
  assert (H : is_u32 99) by (unfold is_u32; lia).
  split; [exact H | apply (int_sqrt_floor 99 H)].
Defined.

(** ** [int_inv_sqrt] *)

Lemma int_inv_sqrt_q_eq (a : Z) :
  0 < a < 2 ^ 16 ->
  int_inv_sqrt_q a = Z.shiftl (65535 / a) 8 /\
  int_inv_sqrt_q a = 65535 / a * 2 ^ 8 /\
  0 < 65535 / a <= 65535.
Proof.
  intros Ha.
  assert (Hr : 0 < 65535 / a <= 65535).
  { split.
    - apply Z.div_str_pos. lia.
    - apply Z.div_le_upper_bound; nia. }
  unfold int_inv_sqrt_q.
  rewrite (u32_small (65535 / a)) by (unfold is_u32; lia).
  rewrite u32_small; rewrite Z.shiftl_mul_pow2 by lia;
    [auto | unfold is_u32; lia].
Qed.

Lemma int_inv_sqrt_root (a : Z) :
  0 < a < 2 ^ 16 ->
  exists x, int_inv_sqrt a = Some x /\ approx_root 0 (int_inv_sqrt_q a) x.
Proof.
  intros Ha. unfold int_inv_sqrt.
  destruct (Z.eqb_spec a 0) as [|_]; [lia|].
  eexists. split; [reflexivity|].
  destruct (int_inv_sqrt_q_eq a Ha) as (_ & Hq & Hr).
  set (q := int_inv_sqrt_q a) in *.
  assert (Hqs : Z.shiftr q 8 = 65535 / a).
  { rewrite Z.shiftr_div_pow2, Hq by lia. apply Z.div_mul. lia. }
  rewrite Hqs.
  set (z := for_shr 8 128 (try_bit u8 u16 (65535 / a)) 0).
  assert (Hz : approx_root 0 (65535 / a) z).
  { apply (for_shr_try_bit_root u8 u16 256 (65535 / a)
             (u8_id_below 256 ltac:(lia)) u16_sq_below 7 8 0).
    - lia.
    - reflexivity.
    - apply approx_root_start; lia. }
  assert (Hzr : 0 <= z < 256)
    by (apply (approx_root_0_bound (65535 / a)); [exact Hz | lia | lia]).
  set (x1 := u16 (Z.shiftl z 4)).
  assert (Hx1 : x1 = z * 2 ^ 4).
  { unfold x1. rewrite Z.shiftl_mul_pow2 by lia. apply u16_small.
    unfold is_u16. lia. }
  apply (for_shr_try_bit_root u16 u32 4096 q
           (u16_id_below 4096 ltac:(lia)) u32_sq_below_4096 3 16 x1).
  - lia.
  - rewrite Hx1. change (2 ^ (Z.of_nat 3 + 1)) with 16. lia.
  - rewrite Hx1. apply (approx_root_widen 4); [lia | lia |].
    change (2 ^ (2 * 4)) with (2 ^ 8).
    replace (q / 2 ^ 8) with (65535 / a); [exact Hz|].
    rewrite Hq. symmetry. apply Z.div_mul. lia.
Qed.

(** C4: for every unsigned 16-bit [a > 0], with [q = (0xFFFF / a) << 8],
    [int_inv_sqrt a] returns an [x] with [x * x <= q < (x + 1) * (x + 1)],
    and no integer with a square up to [q] is larger. *)
Theorem int_inv_sqrt_floor_root_q (a : Z) :
  0 < a < 2 ^ 16 ->
  exists x,
    int_inv_sqrt a = Some x /\
    let q := Z.shiftl (65535 / a) 8 in
    0 <= x /\ x * x <= q /\ q < (x + 1) * (x + 1) /\
    (forall y, y * y <= q -> y <= x).
Proof.
  intros Ha.
  destruct (int_inv_sqrt_root a Ha) as (x & Hx & Hx0 & _ & Hlo & Hhi).
  destruct (int_inv_sqrt_q_eq a Ha) as (Hq & _ & _).
  rewrite Hq in Hlo, Hhi. change (2 ^ 0) with 1 in Hhi.
  exists x. split; [exact Hx|]. cbv zeta.
  repeat split; try assumption.
  intros y Hy. nia.
Qed.

Lemma int_inv_sqrt_floor_root_q_witness :
  0 < 3 < 2 ^ 16 /\
  exists x,
    int_inv_sqrt 3 = Some x /\
    let q := Z.shiftl (65535 / 3) 8 in
    0 <= x /\ x * x <= q /\ q < (x + 1) * (x + 1) /\
    (forall y, y * y <= q -> y <= x).
Proof.
  assert (H : 0 < 3 < 2 ^ 16) by lia.
  split; [exact H | apply (int_inv_sqrt_floor_root_q 3 H)].
Defined.


(** Below the scaled inverse root, in the reals. *)
Lemma below_inv_sqrt (x a : Z) :
  0 <= x -> 0 < a -> x * x * a < 2 ^ 24 ->
  (IZR x < 4096 / sqrt (IZR a))%R.
Proof.
  intros Hx Ha H.
  assert (HaR : (0 < IZR a)%R) by (apply IZR_lt; exact Ha).
  assert (Hs : (0 < sqrt (IZR a))%R) by (apply sqrt_lt_R0; exact HaR).
  apply Rmult_lt_reg_r with (sqrt (IZR a)); [exact Hs|].
  unfold Rdiv. rewrite Rmult_assoc, Rinv_l, Rmult_1_r by lra.
  apply Rsqr_incrst_0.
  - rewrite Rsqr_mult, Rsqr_sqrt by lra.
    unfold Rsqr. rewrite <- !mult_IZR.
    replace (4096 * 4096)%R with (IZR (2 ^ 24)) by (simpl; lra).
    apply IZR_lt. exact H.
  - apply Rmult_le_pos; [apply IZR_le; exact Hx | lra].
  - lra.
Qed.

(** C3 at [a = 1] and [a = 40000]: the bound
    [4096 / sqrt a - 1 < x <= 4096 / sqrt a], which the comment above
    [int_inv_sqrt] gives for the return value, asks for 4096 and for 20;
    the function returns 4095, which is not above [4096 / sqrt 1 - 1 =
    4095], and 16, far below [4096 / sqrt 40000 - 1 = 19.48]. *)
Lemma int_inv_sqrt_lower_bound_fails :
  int_inv_sqrt 1 = Some 4095 /\
  ~ (4096 / sqrt 1 - 1 < IZR 4095 <= 4096 / sqrt 1)%R /\
  int_inv_sqrt 40000 = Some 16 /\
  ~ (4096 / sqrt 40000 - 1 < IZR 16 <= 4096 / sqrt 40000)%R.
Proof.
  split; [vm_compute; reflexivity|].
  split; [rewrite sqrt_1; lra|].
  split; [vm_compute; reflexivity|].
  replace 40000%R with (200 * 200)%R by lra.
  rewrite sqrt_square by lra. lra.
Qed.

(** How far the result is from the documented bound: for every unsigned
    16-bit [a > 0], [x = int_inv_sqrt a] is strictly below
    [4096 / sqrt a], the exact real square root taken (in integers,
    [x * x * a < 2^24]), so the upper half of the bound holds; from below
    the code keeps only [(x + 1) * (x + 1) * a > 2^24 - 256 * a], which is
    what the root of the truncated 16-bit reciprocal [(0xFFFF / a) << 8]
    gives. *)
Theorem int_inv_sqrt_bounds (a : Z) :
  0 < a < 2 ^ 16 ->
  exists x,
    int_inv_sqrt a = Some x /\
    (IZR x < 4096 / sqrt (IZR a))%R /\
    x * x * a < 2 ^ 24 /\
    2 ^ 24 - 256 * a < (x + 1) * (x + 1) * a.
Proof.
  intros Ha.
  destruct (int_inv_sqrt_root a Ha) as (x & Hx & Hx0 & _ & Hlo & Hhi).
  destruct (int_inv_sqrt_q_eq a Ha) as (_ & Hq & Hr).
  rewrite Hq in Hlo, Hhi. change (2 ^ 0) with 1 in Hhi.
  pose proof (Z.div_mod 65535 a ltac:(lia)) as Hdm.
  pose proof (Z.mod_pos_bound 65535 a ltac:(lia)) as Hmb.
  set (d := 65535 / a) in *. set (r := 65535 mod a) in *.
  assert (Hup : x * x * a < 2 ^ 24) by nia.
  exists x. split; [exact Hx|]. split; [|split].
  - apply below_inv_sqrt; [exact Hx0 | lia | exact Hup].
  - exact Hup.
  - nia.
Qed.

Lemma int_inv_sqrt_bounds_witness :
  0 < 40000 < 2 ^ 16 /\
  exists x,
    int_inv_sqrt 40000 = Some x /\
    (IZR x < 4096 / sqrt (IZR 40000))%R /\
    x * x * 40000 < 2 ^ 24 /\
    2 ^ 24 - 256 * 40000 < (x + 1) * (x + 1) * 40000.
Proof.
  assert (H : 0 < 40000 < 2 ^ 16) by lia.
  split; [exact H | apply (int_inv_sqrt_bounds 40000 H)].
Defined.

(** ** [muldivQR] *)

(** *** The remainders stay reduced *)

(** Twice a value below [divisor], or the sum of two, reduced to 32 bits
    and relieved of [divisor] once is below [divisor], wrapped or not. *)
Lemma carry_lt_divisor (divisor q v : Z) :
  0 < divisor <= 2 ^ 32 -> 0 <= v < 2 * divisor ->
  0 <= snd (carry divisor q (u32 v)) < divisor.
Proof.
  intros Hd Hv. unfold carry, u32.
  assert (Hcases : v mod 2 ^ 32 = v \/ v mod 2 ^ 32 = v - 2 ^ 32).
  { destruct (Z_lt_ge_dec v (2 ^ 32)) as [Hlt | Hge].
    - left. apply Z.mod_small. lia.
    - right. symmetry. apply (Z.mod_unique v (2 ^ 32) 1); lia. }
  destruct (Z.geb_spec (v mod 2 ^ 32) divisor) as [Hge | Hlt]; cbn [snd].
  - rewrite (Z.mod_small (v mod 2 ^ 32 - divisor)); lia.
  - pose proof (Z.mod_pos_bound v (2 ^ 32)). lia.
Qed.

Lemma carry_exact (divisor q r : Z) :
  0 < divisor -> 0 <= q -> 0 <= r -> q * divisor + r < 2 ^ 32 ->
  fst (carry divisor q r) * divisor + snd (carry divisor q r)
    = q * divisor + r.
Proof.
  intros Hd Hq Hr Hlt. unfold carry.
  destruct (Z.geb_spec r divisor) as [Hge | Hlt']; cbn [fst snd];
    [|reflexivity].
  rewrite !u32_small by (unfold is_u32; nia). ring.
Qed.

Lemma carry_fst_nonneg (divisor q r : Z) :
  0 <= q -> 0 <= fst (carry divisor q r).
Proof.
  intros Hq. unfold carry. destruct (r >=? divisor); cbn [fst];
    [apply u32_range | exact Hq].
Qed.

Lemma muldivQR_step_bounded (divisor : Z) (s : mdstate) :
  0 < divisor <= 2 ^ 32 ->
  md_bounded divisor s -> md_bounded divisor (muldivQR_step divisor s).
Proof.
  intros Hd [Hrn Hrem]. unfold md_bounded, muldivQR_step. cbn [rn remainder].
  split.
  - apply carry_lt_divisor; [exact Hd|].
    rewrite Z.shiftl_mul_pow2 by lia. lia.
  - destruct (negb (Z.land (multiplicand s) 1 =? 0)); cbn [snd];
      [|exact Hrem].
    apply carry_lt_divisor; [exact Hd | lia].
Qed.

Lemma muldivQR_loop_bounded (divisor : Z) (fuel : nat) :
  0 < divisor <= 2 ^ 32 ->
  forall s s', md_bounded divisor s ->
    muldivQR_loop fuel divisor s = Some s' -> md_bounded divisor s'.
Proof.
  intros Hd. induction fuel as [|fuel IH]; intros s s' Hs; cbn [muldivQR_loop];
    destruct (multiplicand s =? 0); try discriminate.
  - intros [= <-]. exact Hs.
  - intros [= <-]. exact Hs.
  - apply IH. apply muldivQR_step_bounded; assumption.
Qed.

Lemma muldivQR_iter_bounded (divisor : Z) (n : nat) (s : mdstate) :
  0 < divisor <= 2 ^ 32 -> md_bounded divisor s ->
  md_bounded divisor (Nat.iter n (muldivQR_step divisor) s).
Proof.
  intros Hd Hs. induction n as [|n IH]; cbn [Nat.iter]; [exact Hs|].
  apply muldivQR_step_bounded; assumption.
Qed.

(** C8: in [muldivQR], for a nonzero 32-bit divisor and [rn < divisor] on
    entry, [remainder < divisor] holds after every pass through the loop
    body, the loop taken as the step function [muldivQR_step] on the state
    (multiplicand, qn, rn, quotient, remainder), and in the state the loop
    exits with.  The accumulators may even wrap. *)
Theorem muldivQR_remainder_below_divisor (m qn0 rn0 divisor : Z) :
  is_u32 divisor -> 0 <= rn0 < divisor ->
  (forall n : nat,
      let s := Nat.iter n (muldivQR_step divisor) (muldivQR_init m qn0 rn0) in
      0 <= remainder s < divisor) /\
  (forall (fuel : nat) (s : mdstate),
      muldivQR_loop fuel divisor (muldivQR_init m qn0 rn0) = Some s ->
      0 <= remainder s < divisor).
Proof.
  unfold is_u32. intros Hd Hrn.
  assert (Hd' : 0 < divisor <= 2 ^ 32) by lia.
  assert (Hinit : md_bounded divisor (muldivQR_init m qn0 rn0)).
  { unfold md_bounded, muldivQR_init. cbn. lia. }
  split.
  - intros n. cbv zeta.
    apply (muldivQR_iter_bounded divisor n _ Hd' Hinit).
  - intros fuel s Hloop.
    apply (muldivQR_loop_bounded divisor fuel Hd' _ s Hinit Hloop).
Qed.

Lemma muldivQR_remainder_below_divisor_witness :
  (is_u32 3 /\ 0 <= 1 < 3) /\
  (0 <= remainder (Nat.iter 2 (muldivQR_step 3) (muldivQR_init 7 3 1)) < 3) /\
  (forall s, muldivQR_loop 32 3 (muldivQR_init 7 3 1) = Some s ->
             0 <= remainder s < 3).
Proof.
  assert (H1 : is_u32 3) by (unfold is_u32; lia).
  assert (H2 : 0 <= 1 < 3) by lia.
  split; [split; assumption|].
  split.
  - exact (proj1 (muldivQR_remainder_below_divisor 7 3 1 3 H1 H2) 2%nat).
  - exact (proj2 (muldivQR_remainder_below_divisor 7 3 1 3 H1 H2) 32%nat).
Defined.

(** *** The result, where the negation of the multiplicand fits *)

Lemma land_1_mod (m : Z) : Z.land m 1 = m mod 2.
Proof. exact (Z.land_ones m 1 ltac:(lia)). Qed.

Lemma muldivQR_step_inv (divisor P : Z) (s : mdstate) :
  0 < divisor <= 2 ^ 32 -> 0 <= P < 2 ^ 32 ->
  md_inv divisor P s -> multiplicand s <> 0 ->
  md_inv divisor P (muldivQR_step divisor s).
Proof.
  intros Hd HP (Hm & Hqn & Hq & Hb & Heq) Hm0.
  pose proof (muldivQR_step_bounded divisor s Hd Hb) as Hb'.
  destruct Hb as [Hrn Hrem].
  unfold md_inv. split; [|split; [|split; [|split; [exact Hb'|]]]].
  - unfold muldivQR_step; cbn [multiplicand].
    apply Z.shiftr_nonneg. exact Hm.
  - unfold muldivQR_step; cbn [qn].
    apply carry_fst_nonneg, u32_range.
  - unfold muldivQR_step; cbn [quotient].
    destruct (negb _); cbn [fst]; [|exact Hq].
    apply carry_fst_nonneg, u32_range.
  - unfold muldivQR_step;
      cbn [multiplicand qn rn quotient remainder].
    rewrite land_1_mod.
    rewrite Z.shiftr_div_pow2, !Z.shiftl_mul_pow2 by lia.
    change (2 ^ 1) with 2.
    pose proof (Z.div_mod (multiplicand s) 2 ltac:(lia)) as Hdm.
    pose proof (Z.mod_pos_bound (multiplicand s) 2 ltac:(lia)) as Hmb.
    set (m := multiplicand s) in *. set (m' := m / 2) in *.
    set (b := m mod 2) in *.
    set (W := qn s * divisor + rn s) in *.
    set (Q := quotient s * divisor + remainder s) in *.
    assert (HW : 0 <= W) by (unfold W; nia).
    assert (HQ : 0 <= Q) by (unfold Q; nia).
    assert (HmW : W <= m * W) by nia.
    (* the accumulation adds [b * W] *)
    set (acc := if negb (b =? 0)
                then carry divisor (u32 (quotient s + qn s))
                       (u32 (remainder s + rn s))
                else (quotient s, remainder s)).
    assert (Hacc : fst acc * divisor + snd acc = Q + b * W).
    { unfold acc. destruct (Z.eqb_spec b 0) as [Hb0 | Hb1]; cbn [negb fst snd].
      - rewrite Hb0. fold Q. lia.
      - assert (Hb1' : b = 1) by lia.
        assert (HQW : Q + W <= P) by nia.
        assert (Hsum : (quotient s + qn s) * divisor
                       + (remainder s + rn s) = Q + W)
          by (unfold Q, W; ring).
        assert (Hqs : 0 <= quotient s + qn s < 2 ^ 32) by nia.
        assert (Hrs : 0 <= remainder s + rn s < 2 ^ 32) by nia.
        rewrite (u32_small (quotient s + qn s)) by exact Hqs.
        rewrite (u32_small (remainder s + rn s)) by exact Hrs.
        rewrite carry_exact by lia. lia. }
    (* the doubling is exact as long as a bit is left to consume *)
    set (dbl := carry divisor (u32 (qn s * 2)) (u32 (rn s * 2))).
    assert (Hdbl : m' = 0 \/ fst dbl * divisor + snd dbl = 2 * W).
    { destruct (Z.eq_dec m' 0) as [H0 | Hn0]; [left; exact H0 | right].
      assert (H2W : 2 * W <= P) by nia.
      assert (Hsum : (qn s * 2) * divisor + rn s * 2 = 2 * W)
        by (unfold W; ring).
      assert (Hq2 : 0 <= qn s * 2 < 2 ^ 32) by nia.
      assert (Hr2 : 0 <= rn s * 2 < 2 ^ 32) by nia.
      unfold dbl.
      rewrite (u32_small (qn s * 2)) by exact Hq2.
      rewrite (u32_small (rn s * 2)) by exact Hr2.
      rewrite carry_exact by lia. lia. }
    destruct Hdbl as [H0 | Hdbl].
    + rewrite H0 in *. nia.
    + rewrite Hacc. nia.
Qed.

Lemma muldivQR_loop_exits (divisor P : Z) (fuel : nat) :
  0 < divisor <= 2 ^ 32 -> 0 <= P < 2 ^ 32 ->
  forall s, md_inv divisor P s -> multiplicand s < 2 ^ Z.of_nat fuel ->
  exists s', muldivQR_loop fuel divisor s = Some s' /\
             md_inv divisor P s' /\ multiplicand s' = 0.
Proof.
  intros Hd HP. induction fuel as [|fuel IH]; intros s Hinv Hlt;
    cbn [muldivQR_loop];
    destruct (Z.eqb_spec (multiplicand s) 0) as [H0 | Hn0];
    try (exists s; split; [reflexivity | split; assumption]).
  - destruct Hinv as (Hm & _). change (2 ^ Z.of_nat 0) with 1 in Hlt. lia.
  - apply IH.
    + apply muldivQR_step_inv; assumption.
    + unfold muldivQR_step; cbn [multiplicand].
      rewrite Z.shiftr_div_pow2 by lia. change (2 ^ 1) with 2.
      rewrite Nat2Z.inj_succ, Z.pow_succ_r in Hlt by lia.
      apply Z.div_lt_upper_bound; lia.
Qed.

(** A negative multiplicand stays negative under [>>= 1]. *)
Lemma muldivQR_loop_negative (divisor : Z) (fuel : nat) :
  forall s, multiplicand s < 0 -> muldivQR_loop fuel divisor s = None.
Proof.
  induction fuel as [|fuel IH]; intros s Hneg; cbn [muldivQR_loop];
    destruct (Z.eqb_spec (multiplicand s) 0) as [H0 | Hn0]; try lia;
    [reflexivity|].
  apply IH. unfold muldivQR_step; cbn [multiplicand].
  apply Z.shiftr_neg. exact Hneg.
Qed.

Lemma half_sum (d : Z) : d / 2 + (d - 1) / 2 = d - 1.
Proof.
  pose proof (Z.div_mod d 2 ltac:(lia)) as Hd2.
  pose proof (Z.mod_pos_bound d 2 ltac:(lia)) as Hd2b.
  assert (He : d mod 2 = 0 \/ d mod 2 = 1) by lia.
  destruct He as [He | He]; rewrite He in Hd2.
  - rewrite <- (Z.div_unique (d - 1) 2 (d / 2 - 1) 1); lia.
  - rewrite <- (Z.div_unique (d - 1) 2 (d / 2) 0); lia.
Qed.

Lemma round_div_carry (n d : Z) :
  0 < d -> 0 <= n ->
  round_div n d = n / d + (if n mod d >? d / 2 then 1 else 0).
Proof.
  intros Hd Hn. unfold round_div.
  pose proof (Z.div_mod n d ltac:(lia)) as Hdm.
  pose proof (Z.mod_pos_bound n d Hd) as Hmb.
  pose proof (half_sum d) as Hh.
  assert (Hh0 : 0 <= (d - 1) / 2) by (apply Z.div_pos; lia).
  assert (Hh1 : 0 <= d / 2) by (apply Z.div_pos; lia).
  set (q := n / d) in *. set (r := n mod d) in *.
  set (h := d / 2) in *. set (h' := (d - 1) / 2) in *.
  destruct (Z.gtb_spec r h) as [Hgt | Hle].
  - symmetry. apply (Z.div_unique (n + h') d (q + 1) (r + h' - d)); lia.
  - symmetry. apply (Z.div_unique (n + h') d (q + 0) (r + h')); lia.
Qed.

(** [round_div] is a nearest integer: twice its distance from the exact
    quotient is at most one. *)
Lemma round_div_nearest (n d : Z) :
  0 < d -> 0 <= n -> Z.abs (2 * n - 2 * d * round_div n d) <= d.
Proof.
  intros Hd Hn. rewrite round_div_carry by assumption.
  pose proof (Z.div_mod n d ltac:(lia)) as Hdm.
  pose proof (Z.mod_pos_bound n d Hd) as Hmb.
  pose proof (Z.div_mod d 2 ltac:(lia)) as Hd2.
  pose proof (Z.mod_pos_bound d 2 ltac:(lia)) as Hd2b.
  set (q := n / d) in *. set (r := n mod d) in *. set (h := d / 2) in *.
  destruct (Z.gtb_spec r h); nia.
Qed.

Lemma muldiv_exact_nearest (m multiplier divisor : Z) :
  0 < divisor -> 0 <= multiplier ->
  Z.abs (2 * (m * multiplier)
         - 2 * divisor * muldiv_exact m multiplier divisor) <= divisor.
Proof.
  intros Hd Hmul. unfold muldiv_exact.
  assert (Hn : 0 <= Z.abs m * multiplier) by nia.
  pose proof (round_div_nearest (Z.abs m * multiplier) divisor Hd Hn) as H.
  set (R := round_div (Z.abs m * multiplier) divisor) in *.
  destruct (Z.sgn_spec m) as [[Hm ->] | [[Hm ->] | [Hm ->]]].
  - rewrite (Z.abs_eq m) in H by lia. rewrite Z.mul_1_l. exact H.
  - subst m. rewrite !Z.mul_0_l, Z.mul_0_r. cbn. lia.
  - rewrite (Z.abs_neq m) in H by lia. lia.
Qed.

(** For every multiplicand but [INT32_MIN]: when the product of its
    magnitude and the multiplier fits in 32 bits and the rounded quotient is
    an [int32_t], the loop exits within 31 passes and [muldivQR] returns
    the integer nearest to [m * multiplier / divisor], a tie going towards
    zero. *)
Theorem muldivQR_correct (m multiplier divisor : Z) (fuel : nat) :
  - 2 ^ 31 < m < 2 ^ 31 ->
  0 <= multiplier -> 0 < divisor < 2 ^ 32 ->
  Z.abs m * multiplier < 2 ^ 32 ->
  is_i32 (muldiv_exact m multiplier divisor) ->
  (31 <= fuel)%nat ->
  muldivQR fuel m (multiplier / divisor) (multiplier mod divisor) divisor
    = Some (muldiv_exact m multiplier divisor).
Proof.
  intros Hm Hmul Hd HP Hres Hfuel.
  set (P := Z.abs m * multiplier) in *.
  assert (HP0 : 0 <= P) by (unfold P; nia).
  assert (Hd' : 0 < divisor <= 2 ^ 32) by lia.
  pose proof (Z.div_mod multiplier divisor ltac:(lia)) as Hdm.
  pose proof (Z.mod_pos_bound multiplier divisor ltac:(lia)) as Hmb.
  assert (Hqn0 : 0 <= multiplier / divisor) by (apply Z.div_pos; lia).
  assert (Hinit_m :
    multiplicand (muldivQR_init m (multiplier / divisor)
                    (multiplier mod divisor)) = Z.abs m).
  { unfold muldivQR_init; cbn [multiplicand].
    destruct (Z.ltb_spec m 0).
    - rewrite i32_small by (unfold is_i32; lia). lia.
    - lia. }
  assert (Hinv : md_inv divisor P
            (muldivQR_init m (multiplier / divisor) (multiplier mod divisor))).
  { unfold md_inv, md_bounded. rewrite Hinit_m.
    unfold muldivQR_init; cbn [qn rn quotient remainder].
    repeat split; lia. }
  destruct (muldivQR_loop_exits divisor P fuel Hd' ltac:(lia) _ Hinv)
    as (s & Hloop & (_ & _ & Hq & (_ & Hrem) & Heq) & Hm0).
  { rewrite Hinit_m.
    apply Z.lt_le_trans with (2 ^ 31); [lia|].
    apply Z.pow_le_mono_r; lia. }
  unfold muldivQR. rewrite Hloop. f_equal.
  rewrite Hm0 in Heq.
  assert (Hquot : quotient s = P / divisor)
    by (apply (Z.div_unique P divisor (quotient s) (remainder s)); lia).
  assert (Hrmd : remainder s = P mod divisor)
    by (apply (Z.mod_unique P divisor (quotient s) (remainder s)); lia).
  pose proof (round_div_carry P divisor ltac:(lia) HP0) as HR.
  unfold muldivQR_finish.
  assert (Hround :
    (if remainder s >? divisor / 2 then u32 (quotient s + 1) else quotient s)
    = round_div P divisor).
  { rewrite HR, <- Hrmd, <- Hquot.
    destruct (Z.gtb_spec (remainder s) (divisor / 2)) as [Hgt | Hle]; [|lia].
    apply u32_small. unfold is_u32.
    assert (0 <= divisor / 2) by (apply Z.div_pos; lia). nia. }
  rewrite Hround.
  unfold muldiv_exact in *. fold P in Hres |- *.
  set (R := round_div P divisor) in *.
  assert (HPm : m = 0 -> P = 0) by (intros ->; reflexivity).
  clearbody R P.
  unfold is_i32 in Hres.
  destruct (Z.ltb_spec m 0) as [Hneg | Hpos].
  - rewrite Z.sgn_neg in * by lia.
    destruct (Z.eq_dec R (2 ^ 31)) as [-> | HR31].
    + reflexivity.
    + rewrite (i32_small R) by (unfold is_i32; lia).
      rewrite i32_small by (unfold is_i32; lia). ring.
  - destruct (Z.eq_dec m 0) as [-> | Hm1].
    + assert (HP_0 : P = 0) by (apply HPm; reflexivity).
      assert (HR0 : R = 0).
      { rewrite HR, HP_0.
        rewrite Z.div_0_l, Z.mod_0_l by lia.
        assert (0 <= divisor / 2) by (apply Z.div_pos; lia).
        destruct (Z.gtb_spec 0 (divisor / 2)); lia. }
      rewrite HR0. reflexivity.
    + rewrite Z.sgn_pos in * by lia.
      rewrite Z.mul_1_l in *. apply i32_small. unfold is_i32. lia.
Qed.

Example muldivQR_correct_at_minus_7 :
  muldivQR 31 (-7) (10 / 3) (10 mod 3) 3 = Some (-23).
Proof.
  apply (muldivQR_correct (-7) 10 3 31);
    unfold is_i32; try lia; vm_compute; intuition discriminate.
Qed.

(** C1 at [m = INT32_MIN]: the multiplier 0 over the divisor 1 has the
    product 0 and the quotient 0, but [-multiplicand] wraps back to
    [INT32_MIN], the arithmetic shift keeps the multiplicand negative, and
    the loop never exits: no fuel gives a result. *)
Theorem muldivQR_int32_min_never_returns :
  is_i32 INT32_MIN /\ is_u32 0 /\ is_u32 1 /\
  INT32_MIN * 0 = 0 /\ muldiv_exact INT32_MIN 0 1 = 0 /\
  (forall fuel : nat, muldivQR fuel INT32_MIN (0 / 1) (0 mod 1) 1 = None) /\
  (forall (fuel : nat) (qn rn divisor : Z),
      muldivQR fuel INT32_MIN qn rn divisor = None).
Proof.
  assert (Hall : forall (fuel : nat) (qn rn divisor : Z),
             muldivQR fuel INT32_MIN qn rn divisor = None).
  { intros fuel qn0 rn0 divisor. unfold muldivQR.
    rewrite muldivQR_loop_negative; [reflexivity|].
    vm_compute. reflexivity. }
  repeat split; try reflexivity; try in_range.
  - intros fuel. apply Hall.
  - exact Hall.
Qed.

(** * Further properties *)

(** ** [msbloc] *)

Lemma land_pow2_testbit (v i : Z) :
  0 <= i -> (Z.land v (2 ^ i) =? 0) = negb (Z.testbit v i).
Proof.
  intros Hi. destruct (Z.testbit v i) eqn:Hb; cbn [negb].
  - apply Z.eqb_neq. intros H0.
    assert (Hbit : Z.testbit (Z.land v (2 ^ i)) i = true)
      by (rewrite Z.land_spec, Hb, Z.pow2_bits_true by lia; reflexivity).
    rewrite H0, Z.bits_0 in Hbit. discriminate.
  - apply Z.eqb_eq. apply Z.bits_inj'. intros n Hn.
    rewrite Z.land_spec, Z.bits_0, Z.pow2_bits_eqb by lia.
    destruct (Z.eqb_spec i n) as [<- | Hne];
      [rewrite Hb; reflexivity | apply andb_false_r].
Qed.

Lemma testbit_top (v i : Z) :
  0 <= i -> 0 <= v < 2 ^ (i + 1) ->
  Z.testbit v i = (2 ^ i <=? v).
Proof.
  intros Hi Hv.
  assert (Hp : 0 < 2 ^ i) by (apply Z.pow_pos_nonneg; lia).
  assert (Hp2 : 2 ^ (i + 1) = 2 * 2 ^ i)
    by (rewrite Z.pow_add_r, Z.pow_1_r by lia; ring).
  destruct (Z.leb_spec (2 ^ i) v) as [Hle | Hlt].
  - apply Z.testbit_true; [lia|].
    replace (v / 2 ^ i) with 1; [reflexivity|].
    apply (Z.div_unique v (2 ^ i) 1 (v - 2 ^ i)); lia.
  - apply Z.testbit_false; [lia|].
    rewrite Z.div_small by lia. reflexivity.
Qed.

Lemma msbloc_loop_spec (i : nat) (v : Z) :
  (i < 256)%nat -> 1 <= v < 2 ^ (Z.of_nat i + 1) ->
  let r := msbloc_loop i (2 ^ Z.of_nat i) v in
  0 <= r <= Z.of_nat i /\ 2 ^ r <= v < 2 ^ (r + 1).
Proof.
  induction i as [|i IH]; intros Hi Hv; cbv zeta.
  - cbn [msbloc_loop]. change (Z.of_nat 0) with 0 in Hv. cbn in *. lia.
  - cbn [msbloc_loop].
    rewrite land_pow2_testbit, Bool.negb_involutive by lia.
    rewrite testbit_top by lia.
    destruct (Z.leb_spec (2 ^ Z.of_nat (S i)) v) as [Hle | Hlt].
    + rewrite u8_small by (unfold is_u8; lia). lia.
    + assert (Hsh : Z.shiftr (2 ^ Z.of_nat (S i)) 1 = 2 ^ Z.of_nat i).
      { rewrite Z.shiftr_div_pow2 by lia.
        rewrite Nat2Z.inj_succ, Z.pow_succ_r by lia.
        change (2 ^ 1) with 2. rewrite Z.mul_comm. apply Z.div_mul. lia. }
      rewrite Hsh.
      replace (Z.of_nat (S i)) with (Z.of_nat i + 1) in Hlt by lia.
      destruct (IH ltac:(lia) ltac:(lia)) as [Hr Hb]. cbv zeta in Hr, Hb.
      split; [lia | exact Hb].
Qed.

(** X1: [msbloc] returns a bit index between 0 and 31; for every non-zero
    32-bit [v] it is the position of the highest set bit,
    [2^msbloc(v) <= v < 2^(msbloc(v)+1)], the floor of the binary logarithm;
    for [v = 0] it is 0. *)
Theorem msbloc_floor_log2 (v : Z) :
  is_u32 v ->
  0 <= msbloc v <= 31 /\
  (v = 0 -> msbloc v = 0) /\
  (1 <= v -> 2 ^ msbloc v <= v < 2 ^ (msbloc v + 1) /\ msbloc v = Z.log2 v).
Proof.
  unfold is_u32. intros Hv.
  assert (H0 : msbloc 0 = 0) by reflexivity.
  destruct (Z.eq_dec v 0) as [-> | Hnz].
  - rewrite H0. repeat split; lia.
  - pose proof (msbloc_loop_spec 31 v ltac:(lia)) as H.
    change (2 ^ Z.of_nat 31) with 2147483648 in H.
    change (2 ^ (Z.of_nat 31 + 1)) with (2 ^ 32) in H.
    specialize (H ltac:(lia)). cbv zeta in H. fold (msbloc v) in H.
    destruct H as [Hr Hb].
    split; [lia|]. split; [lia|]. intros _. split; [exact Hb|].
    symmetry. apply Z.log2_unique; [lia|].
    replace (Z.succ (msbloc v)) with (msbloc v + 1) by lia. exact Hb.
Qed.

Lemma msbloc_floor_log2_witness :
  0 <= msbloc 1000 <= 31 /\
  (1000 = 0 -> msbloc 1000 = 0) /\
  (1 <= 1000 ->
   2 ^ msbloc 1000 <= 1000 < 2 ^ (msbloc 1000 + 1) /\
   msbloc 1000 = Z.log2 1000).
Proof. apply (msbloc_floor_log2 1000). unfold is_u32. lia. Defined.

(** ** More on [muldivQR] *)

(** *** Products wider than 32 bits *)

Lemma carry_exact_wide (divisor q r : Z) :
  0 < divisor -> 0 <= q -> 0 <= r < 2 ^ 32 ->
  (divisor <= r -> q + 1 < 2 ^ 32) ->
  fst (carry divisor q r) * divisor + snd (carry divisor q r)
    = q * divisor + r.
Proof.
  intros Hd Hq Hr Hlt. unfold carry.
  destruct (Z.geb_spec r divisor) as [Hge | Hlt']; cbn [fst snd];
    [|reflexivity].
  rewrite !u32_small by (unfold is_u32; lia). ring.
Qed.

(** With a divisor of at most [2^31] no remainder wraps, and the quotients
    stay below the quotient of the whole product. *)
Lemma muldivQR_step_inv_wide (divisor P : Z) (s : mdstate) :
  0 < divisor <= 2 ^ 31 -> 0 <= P < 2 ^ 32 * divisor ->
  md_inv divisor P s -> multiplicand s <> 0 ->
  md_inv divisor P (muldivQR_step divisor s).
Proof.
  intros Hd HP (Hm & Hqn & Hq & Hb & Heq) Hm0.
  pose proof (muldivQR_step_bounded divisor s ltac:(lia) Hb) as Hb'.
  destruct Hb as [Hrn Hrem].
  unfold md_inv. split; [|split; [|split; [|split; [exact Hb'|]]]].
  - unfold muldivQR_step; cbn [multiplicand].
    apply Z.shiftr_nonneg. exact Hm.
  - unfold muldivQR_step; cbn [qn].
    apply carry_fst_nonneg, u32_range.
  - unfold muldivQR_step; cbn [quotient].
    destruct (negb _); cbn [fst]; [|exact Hq].
    apply carry_fst_nonneg, u32_range.
  - unfold muldivQR_step;
      cbn [multiplicand qn rn quotient remainder].
    rewrite land_1_mod.
    rewrite Z.shiftr_div_pow2, !Z.shiftl_mul_pow2 by lia.
    change (2 ^ 1) with 2.
    pose proof (Z.div_mod (multiplicand s) 2 ltac:(lia)) as Hdm.
    pose proof (Z.mod_pos_bound (multiplicand s) 2 ltac:(lia)) as Hmb.
    set (m := multiplicand s) in *. set (m' := m / 2) in *.
    set (b := m mod 2) in *.
    set (W := qn s * divisor + rn s) in *.
    set (Q := quotient s * divisor + remainder s) in *.
    assert (HW : 0 <= W) by (unfold W; nia).
    assert (HQ : 0 <= Q) by (unfold Q; nia).
    assert (HmW : W <= m * W) by nia.
    (* whatever times [divisor] stays within [P] is a 32-bit value *)
    assert (Hfit : forall k, k * divisor <= P -> k < 2 ^ 32)
      by (intros k Hk; nia).
    set (acc := if negb (b =? 0)
                then carry divisor (u32 (quotient s + qn s))
                       (u32 (remainder s + rn s))
                else (quotient s, remainder s)).
    assert (Hacc : fst acc * divisor + snd acc = Q + b * W).
    { unfold acc. destruct (Z.eqb_spec b 0) as [Hb0 | Hb1]; cbn [negb fst snd].
      - rewrite Hb0. fold Q. lia.
      - assert (Hb1' : b = 1) by lia.
        assert (HQW : Q + W <= P) by nia.
        assert (Hsum : (quotient s + qn s) * divisor
                       + (remainder s + rn s) = Q + W)
          by (unfold Q, W; ring).
        assert (Hqs : 0 <= quotient s + qn s < 2 ^ 32)
          by (split; [lia | apply Hfit; nia]).
        assert (Hrs : 0 <= remainder s + rn s < 2 ^ 32) by lia.
        rewrite (u32_small (quotient s + qn s)) by exact Hqs.
        rewrite (u32_small (remainder s + rn s)) by exact Hrs.
        rewrite carry_exact_wide; [lia | lia | lia | exact Hrs |].
        intros Hge. apply Hfit. nia. }
    set (dbl := carry divisor (u32 (qn s * 2)) (u32 (rn s * 2))).
    assert (Hdbl : m' = 0 \/ fst dbl * divisor + snd dbl = 2 * W).
    { destruct (Z.eq_dec m' 0) as [H0 | Hn0]; [left; exact H0 | right].
      assert (H2W : 2 * W <= P) by nia.
      assert (Hsum : (qn s * 2) * divisor + rn s * 2 = 2 * W)
        by (unfold W; ring).
      assert (Hq2 : 0 <= qn s * 2 < 2 ^ 32)
        by (split; [lia | apply Hfit; nia]).
      assert (Hr2 : 0 <= rn s * 2 < 2 ^ 32) by lia.
      unfold dbl.
      rewrite (u32_small (qn s * 2)) by exact Hq2.
      rewrite (u32_small (rn s * 2)) by exact Hr2.
      rewrite carry_exact_wide; [lia | lia | lia | exact Hr2 |].
      intros Hge. apply Hfit. nia. }
    destruct Hdbl as [H0 | Hdbl].
    + rewrite H0 in *. nia.
    + rewrite Hacc. nia.
Qed.

Lemma muldivQR_loop_exits_wide (divisor P : Z) (fuel : nat) :
  0 < divisor <= 2 ^ 31 -> 0 <= P < 2 ^ 32 * divisor ->
  forall s, md_inv divisor P s -> multiplicand s < 2 ^ Z.of_nat fuel ->
  exists s', muldivQR_loop fuel divisor s = Some s' /\
             md_inv divisor P s' /\ multiplicand s' = 0.
Proof.
  intros Hd HP. induction fuel as [|fuel IH]; intros s Hinv Hlt;
    cbn [muldivQR_loop];
    destruct (Z.eqb_spec (multiplicand s) 0) as [H0 | Hn0];
    try (exists s; split; [reflexivity | split; assumption]).
  - destruct Hinv as (Hm & _). change (2 ^ Z.of_nat 0) with 1 in Hlt. lia.
  - apply IH.
    + apply muldivQR_step_inv_wide; assumption.
    + unfold muldivQR_step; cbn [multiplicand].
      rewrite Z.shiftr_div_pow2 by lia. change (2 ^ 1) with 2.
      rewrite Nat2Z.inj_succ, Z.pow_succ_r in Hlt by lia.
      apply Z.div_lt_upper_bound; lia.
Qed.

Lemma round_div_ge_floor (n d : Z) :
  0 < d -> 0 <= n -> n / d <= round_div n d <= n / d + 1.
Proof.
  intros Hd Hn. rewrite round_div_carry by assumption.
  destruct (n mod d >? d / 2); lia.
Qed.

(** The rounding and the sign, once the loop has left the floor quotient
    and the remainder of the product. *)
Lemma muldivQR_finish_exact (m multiplier divisor : Z) (s : mdstate) :
  0 < divisor -> 0 <= multiplier ->
  md_inv divisor (Z.abs m * multiplier) s -> multiplicand s = 0 ->
  is_i32 (muldiv_exact m multiplier divisor) ->
  muldivQR_finish (m <? 0) divisor s = muldiv_exact m multiplier divisor.
Proof.
  intros Hd Hmul (_ & _ & Hq & (_ & Hrem) & Heq) Hm0 Hres.
  set (P := Z.abs m * multiplier) in *.
  assert (HP0 : 0 <= P) by (unfold P; nia).
  rewrite Hm0 in Heq.
  assert (Hquot : quotient s = P / divisor)
    by (apply (Z.div_unique P divisor (quotient s) (remainder s)); lia).
  assert (Hrmd : remainder s = P mod divisor)
    by (apply (Z.mod_unique P divisor (quotient s) (remainder s)); lia).
  pose proof (round_div_carry P divisor Hd HP0) as HR.
  unfold muldiv_exact in *. fold P in Hres |- *.
  set (R := round_div P divisor) in *.
  assert (HPm : m = 0 -> P = 0) by (intros ->; reflexivity).
  clearbody R P.
  unfold is_i32 in Hres.
  assert (HRfit : remainder s > divisor / 2 -> quotient s + 1 < 2 ^ 32).
  { intros Hgt. destruct (Z.eq_dec m 0) as [Hz | Hnz].
    - rewrite (HPm Hz) in Hrmd. rewrite Z.mod_0_l in Hrmd by lia.
      assert (0 <= divisor / 2) by (apply Z.div_pos; lia). lia.
    - assert (HR' : R = quotient s + 1).
      { rewrite HR, <- Hrmd, <- Hquot.
        destruct (Z.gtb_spec (remainder s) (divisor / 2)); lia. }
      destruct (Z.sgn_spec m) as [[? Hs] | [[? Hs] | [? Hs]]];
        rewrite Hs in Hres; lia. }
  unfold muldivQR_finish.
  assert (Hround :
    (if remainder s >? divisor / 2 then u32 (quotient s + 1) else quotient s)
    = R).
  { rewrite HR, <- Hrmd, <- Hquot.
    destruct (Z.gtb_spec (remainder s) (divisor / 2)) as [Hgt | Hle]; [|lia].
    apply u32_small. unfold is_u32. lia. }
  rewrite Hround.
  destruct (Z.ltb_spec m 0) as [Hneg | Hpos].
  - rewrite Z.sgn_neg in * by lia.
    destruct (Z.eq_dec R (2 ^ 31)) as [-> | HR31].
    + reflexivity.
    + assert (0 <= R).
      { rewrite HR. assert (0 <= P / divisor) by (apply Z.div_pos; lia).
        destruct (P mod divisor >? divisor / 2); lia. }
      rewrite (i32_small R) by (unfold is_i32; lia).
      rewrite i32_small by (unfold is_i32; lia). ring.
  - destruct (Z.eq_dec m 0) as [-> | Hm1].
    + assert (HP_0 : P = 0) by (apply HPm; reflexivity).
      assert (HR0 : R = 0).
      { rewrite HR, HP_0.
        rewrite Z.div_0_l, Z.mod_0_l by lia.
        assert (0 <= divisor / 2) by (apply Z.div_pos; lia).
        destruct (Z.gtb_spec 0 (divisor / 2)); lia. }
      rewrite HR0. reflexivity.
    + rewrite Z.sgn_pos in * by lia.
      rewrite Z.mul_1_l in *. apply i32_small. unfold is_i32. lia.
Qed.

Lemma muldivQR_init_inv (m multiplier divisor : Z) :
  - 2 ^ 31 < m < 2 ^ 31 -> 0 <= multiplier -> 0 < divisor ->
  let s := muldivQR_init m (multiplier / divisor) (multiplier mod divisor) in
  md_inv divisor (Z.abs m * multiplier) s /\ multiplicand s = Z.abs m.
Proof.
  intros Hm Hmul Hd. cbv zeta.
  pose proof (Z.div_mod multiplier divisor ltac:(lia)) as Hdm.
  pose proof (Z.mod_pos_bound multiplier divisor ltac:(lia)) as Hmb.
  assert (Hqn0 : 0 <= multiplier / divisor) by (apply Z.div_pos; lia).
  assert (Hinit_m :
    multiplicand (muldivQR_init m (multiplier / divisor)
                    (multiplier mod divisor)) = Z.abs m).
  { unfold muldivQR_init; cbn [multiplicand].
    destruct (Z.ltb_spec m 0).
    - rewrite i32_small by (unfold is_i32; lia). lia.
    - lia. }
  split; [|exact Hinit_m].
  unfold md_inv, md_bounded. rewrite Hinit_m.
  unfold muldivQR_init; cbn [qn rn quotient remainder].
  repeat split; lia.
Qed.

Lemma muldivQR_correct_wide (m multiplier divisor : Z) (fuel : nat) :
  - 2 ^ 31 < m < 2 ^ 31 ->
  0 <= multiplier -> 0 < divisor <= 2 ^ 31 ->
  is_i32 (muldiv_exact m multiplier divisor) ->
  (31 <= fuel)%nat ->
  muldivQR fuel m (multiplier / divisor) (multiplier mod divisor) divisor
    = Some (muldiv_exact m multiplier divisor).
Proof.
  intros Hm Hmul Hd Hres Hfuel.
  destruct (muldivQR_init_inv m multiplier divisor Hm Hmul ltac:(lia))
    as [Hinv Hinit_m].
  assert (HP : 0 <= Z.abs m * multiplier < 2 ^ 32 * divisor).
  { split; [nia|].
    destruct (Z.eq_dec m 0) as [-> | Hnz]; [change (Z.abs 0) with 0; lia|].
    assert (Hn : 0 <= Z.abs m * multiplier) by nia.
    pose proof (round_div_ge_floor (Z.abs m * multiplier) divisor
                  ltac:(lia) Hn) as Hfl.
    unfold muldiv_exact, is_i32 in Hres.
    assert (HR : round_div (Z.abs m * multiplier) divisor <= 2 ^ 31).
    { destruct (Z.sgn_spec m) as [[? Hs] | [[? Hs] | [? Hs]]];
        rewrite Hs in Hres; lia. }
    pose proof (Z.div_mod (Z.abs m * multiplier) divisor ltac:(lia)) as Hdm.
    pose proof (Z.mod_pos_bound (Z.abs m * multiplier) divisor ltac:(lia)).
    nia. }
  destruct (muldivQR_loop_exits_wide divisor _ fuel Hd HP _ Hinv)
    as (s & Hloop & Hinv' & Hm0).
  { rewrite Hinit_m.
    apply Z.lt_le_trans with (2 ^ 31); [lia|].
    apply Z.pow_le_mono_r; lia. }
  unfold muldivQR. rewrite Hloop. f_equal.
  apply muldivQR_finish_exact; try assumption; lia.
Qed.

(** X2: for every multiplicand but [INT32_MIN], a 32-bit multiplier given as
    its quotient and remainder by the divisor, and a result that is an
    [int32_t]: when the divisor is at most [2^31], or the product itself
    fits in 32 bits, [muldivQR] returns an integer nearest to
    [m * multiplier / divisor] (a tie going towards zero), however wide the
    product [m * multiplier] is. *)
Theorem muldivQR_rounds_to_nearest (m multiplier divisor : Z) (fuel : nat) :
  - 2 ^ 31 < m < 2 ^ 31 ->
  is_u32 multiplier -> 0 < divisor < 2 ^ 32 ->
  divisor <= 2 ^ 31 \/ Z.abs m * multiplier < 2 ^ 32 ->
  is_i32 (muldiv_exact m multiplier divisor) ->
  (31 <= fuel)%nat ->
  exists r,
    muldivQR fuel m (multiplier / divisor) (multiplier mod divisor) divisor
      = Some r /\
    r = muldiv_exact m multiplier divisor /\
    Z.abs (2 * (m * multiplier) - 2 * divisor * r) <= divisor.
Proof.
  unfold is_u32. intros Hm Hmul Hd Hcase Hres Hfuel.
  exists (muldiv_exact m multiplier divisor). split; [|split].
  - destruct Hcase as [Hsmall | Hprod].
    + apply muldivQR_correct_wide; try assumption; lia.
    + apply muldivQR_correct; try assumption; lia.
  - reflexivity.
  - apply muldiv_exact_nearest; lia.
Qed.

Lemma muldivQR_rounds_to_nearest_witness :
  exists r,
    muldivQR 31 (-1000000) (4000000000 / 2000000000)
      (4000000000 mod 2000000000) 2000000000 = Some r /\
    r = muldiv_exact (-1000000) 4000000000 2000000000 /\
    Z.abs (2 * (-1000000 * 4000000000) - 2 * 2000000000 * r) <= 2000000000.
Proof.
  apply (muldivQR_rounds_to_nearest (-1000000) 4000000000 2000000000 31).
  - lia.
  - unfold is_u32. lia.
  - lia.
  - left. lia.
  - change (muldiv_exact (-1000000) 4000000000 2000000000) with (-2000000).
    unfold is_i32. lia.
  - lia.
Defined.

(** *** Passes of the loop *)

Lemma muldivQR_loop_terminates (divisor : Z) (fuel : nat) :
  forall s, 0 <= multiplicand s < 2 ^ Z.of_nat fuel ->
  exists s', muldivQR_loop fuel divisor s = Some s'.
Proof.
  induction fuel as [|fuel IH]; intros s Hm; cbn [muldivQR_loop];
    destruct (Z.eqb_spec (multiplicand s) 0) as [H0 | Hn0];
    try (exists s; reflexivity).
  - change (2 ^ Z.of_nat 0) with 1 in Hm. lia.
  - apply IH. unfold muldivQR_step; cbn [multiplicand].
    rewrite Z.shiftr_div_pow2 by lia. change (2 ^ 1) with 2.
    rewrite Nat2Z.inj_succ, Z.pow_succ_r in Hm by lia.
    split; [apply Z.div_pos; lia | apply Z.div_lt_upper_bound; lia].
Qed.

Lemma muldivQR_loop_more_fuel (divisor : Z) (fuel extra : nat) :
  forall s s', muldivQR_loop fuel divisor s = Some s' ->
               muldivQR_loop (fuel + extra) divisor s = Some s'.
Proof.
  induction fuel as [|fuel IH]; intros s s'.
  - cbn [muldivQR_loop]. destruct (multiplicand s =? 0) eqn:H0;
      [|discriminate].
    intros H. destruct extra; cbn [Nat.add muldivQR_loop]; rewrite H0; exact H.
  - cbn [Nat.add muldivQR_loop]. destruct (multiplicand s =? 0);
      [trivial | apply IH].
Qed.

(** X3: for every multiplicand but [INT32_MIN] the loop of [muldivQR] ends
    within 31 passes, whatever [qn], [rn] and [divisor] are, and further
    fuel does not change the result. *)
Theorem muldivQR_at_most_31_passes (m qn0 rn0 divisor : Z) (fuel : nat) :
  - 2 ^ 31 < m < 2 ^ 31 -> (31 <= fuel)%nat ->
  exists r, muldivQR 31 m qn0 rn0 divisor = Some r /\
            muldivQR fuel m qn0 rn0 divisor = Some r.
Proof.
  intros Hm Hfuel.
  destruct (muldivQR_loop_terminates divisor 31 (muldivQR_init m qn0 rn0))
    as [s Hs].
  { unfold muldivQR_init; cbn [multiplicand].
    change (2 ^ Z.of_nat 31) with (2 ^ 31).
    destruct (Z.ltb_spec m 0).
    - rewrite i32_small by (unfold is_i32; lia). lia.
    - lia. }
  exists (muldivQR_finish (m <? 0) divisor s). unfold muldivQR.
  replace fuel with (31 + (fuel - 31))%nat by lia.
  rewrite (muldivQR_loop_more_fuel divisor 31 (fuel - 31) _ s Hs), Hs.
  split; reflexivity.
Qed.

Lemma muldivQR_at_most_31_passes_witness :
  exists r, muldivQR 31 (-7) 3 1 3 = Some r /\
            muldivQR 40 (-7) 3 1 3 = Some r.
Proof.
  apply (muldivQR_at_most_31_passes (-7) 3 1 3 40); lia.
Defined.

(** *** The sign *)

(** X4: [muldivQR] is odd in the multiplicand: for a positive [m] the
    result for [-m] is the negated result for [m] (as an [int32_t]),
    whatever the other arguments, so the rounding is symmetric about
    zero. *)
Theorem muldivQR_odd (m qn0 rn0 divisor : Z) (fuel : nat) :
  0 < m < 2 ^ 31 ->
  muldivQR fuel (- m) qn0 rn0 divisor
    = option_map (fun r => i32 (- r)) (muldivQR fuel m qn0 rn0 divisor).
Proof.
  intros Hm. unfold muldivQR.
  assert (Hinit : muldivQR_init (- m) qn0 rn0 = muldivQR_init m qn0 rn0).
  { unfold muldivQR_init.
    destruct (Z.ltb_spec (- m) 0); [|lia].
    destruct (Z.ltb_spec m 0); [lia|].
    rewrite Z.opp_involutive, i32_small by (unfold is_i32; lia).
    reflexivity. }
  rewrite Hinit.
  destruct (muldivQR_loop fuel divisor (muldivQR_init m qn0 rn0)) as [s|];
    [|reflexivity].
  cbn [option_map]. f_equal. unfold muldivQR_finish.
  destruct (Z.ltb_spec (- m) 0); [|lia].
  destruct (Z.ltb_spec m 0); [lia|]. reflexivity.
Qed.

Lemma muldivQR_odd_witness :
  muldivQR 31 (- 7) 3 1 3
    = option_map (fun r => i32 (- r)) (muldivQR 31 7 3 1 3).
Proof. apply (muldivQR_odd 7 3 1 3 31). lia. Defined.

(** *** Divisors above [2^31] *)

(** X5: above [2^31] the divisor is too large for the doubling of [rn]: with
    the multiplier [2^31 + 1] and the divisor [2^32 - 1], for every
    multiplicand [2^k], [1 <= k <= 30], all operands and the exact result
    [2^(k-1)] fit in 32 bits, and [muldivQR] returns 0. *)
Theorem muldivQR_large_divisor_loses_quotient (k : Z) :
  1 <= k <= 30 ->
  let m := 2 ^ k in
  let multiplier := 2 ^ 31 + 1 in
  let divisor := 2 ^ 32 - 1 in
  is_i32 m /\ is_u32 multiplier /\ is_u32 divisor /\
  muldiv_exact m multiplier divisor = 2 ^ (k - 1) /\
  muldivQR 31 m (multiplier / divisor) (multiplier mod divisor) divisor
    = Some 0.
Proof.
  intros Hk. cbv zeta.
  replace k with (Z.of_nat (Z.to_nat k)) by lia.
  assert (Hn : (1 <= Z.to_nat k <= 30)%nat) by lia.
  set (n := Z.to_nat k) in *. clearbody n. clear Hk k.
  do 31 (destruct n as [|n];
         [try lia; vm_compute; intuition discriminate|]).
  lia.
Qed.

Lemma muldivQR_large_divisor_loses_quotient_witness :
  is_i32 (2 ^ 10) /\ is_u32 (2 ^ 31 + 1) /\ is_u32 (2 ^ 32 - 1) /\
  muldiv_exact (2 ^ 10) (2 ^ 31 + 1) (2 ^ 32 - 1) = 2 ^ (10 - 1) /\
  muldivQR 31 (2 ^ 10) ((2 ^ 31 + 1) / (2 ^ 32 - 1))
    ((2 ^ 31 + 1) mod (2 ^ 32 - 1)) (2 ^ 32 - 1) = Some 0.
Proof.
  apply (muldivQR_large_divisor_loses_quotient 10). lia.
Defined.

(** ** More on [approx_distance] *)

Lemma approx_distance_ranked (min max : Z) :
  1 <= min <= max -> max <= 2966137 ->
  Z.shiftr
    (u32 ((if max <? u32 (Z.shiftl min 4)
           then u32 (u32 (u32 (max * 1007) + u32 (min * 441)) - u32 (max * 40))
           else u32 (u32 (max * 1007) + u32 (min * 441))) + 512)) 10
  = (approx_distance_sum min max + 512) / 1024.
Proof.
  intros Hmin Hmax. unfold approx_distance_sum.
  rewrite Z.shiftl_mul_pow2 by lia. change (2 ^ 4) with 16.
  rewrite (u32_small (min * 16)) by (unfold is_u32; lia).
  rewrite (u32_small (max * 1007)) by (unfold is_u32; lia).
  rewrite (u32_small (min * 441)) by (unfold is_u32; lia).
  rewrite (u32_small (max * 40)) by (unfold is_u32; lia).
  rewrite (u32_small (max * 1007 + min * 441)) by (unfold is_u32; lia).
  rewrite Z.shiftr_div_pow2 by lia. change (2 ^ 10) with 1024.
  replace (16 * min) with (min * 16) by ring.
  destruct (max <? min * 16).
  - rewrite (u32_small (max * 1007 + min * 441 - max * 40))
      by (unfold is_u32; lia).
    rewrite u32_small by (unfold is_u32; lia). f_equal. ring.
  - rewrite u32_small by (unfold is_u32; lia). f_equal. ring.
Qed.

Lemma approx_distance_sum_bounds (min max : Z) :
  1 <= min <= max ->
  let N := approx_distance_sum min max in
  0 <= N /\
  992 * 992 * (max * max + min * min) <= N * N /\
  N * N <= 1063 * 1063 * (max * max + min * min).
Proof.
  intros H. cbv zeta. unfold approx_distance_sum.
  assert (Haa : 0 <= max * max) by apply Z.square_nonneg.
  assert (Hbb : 0 <= min * min) by apply Z.square_nonneg.
  assert (Hab : 0 <= min * (max - min))
    by (apply Z.mul_nonneg_nonneg; lia).
  destruct (Z.ltb_spec max (16 * min)) as [Hlt | Hge].
  - split; [lia|]. split.
    + assert (0 <= (max - min) * (16 * min - max))
        by (apply Z.mul_nonneg_nonneg; lia).
      lia.
    + assert (Hcs : (967 * max + 441 * min) * (967 * max + 441 * min)
                    + (441 * max - 967 * min) * (441 * max - 967 * min)
                    = 1129570 * (max * max + min * min)) by ring.
      assert (0 <= (441 * max - 967 * min) * (441 * max - 967 * min))
        by apply Z.square_nonneg.
      lia.
  - split; [lia|]. split.
    + lia.
    + assert (0 <= max * (max - 16 * min))
        by (apply Z.mul_nonneg_nonneg; lia).
      lia.
Qed.

Lemma approx_distance_rounded_sum (dx dy : Z) :
  0 <= dx <= 2966137 -> 0 <= dy <= 2966137 ->
  exists N,
    0 <= N /\
    992 * 992 * (dx * dx + dy * dy) <= N * N /\
    N * N <= 1063 * 1063 * (dx * dx + dy * dy) /\
    1024 * approx_distance dx dy <= N + 512
      < 1024 * approx_distance dx dy + 1024.
Proof.
  intros Hx Hy. unfold approx_distance.
  destruct (Z.eqb_spec dx 0) as [Hx0 | Hx0]; cbn [orb].
  - subst dx. exists (1024 * dy).
    rewrite u32_small by (unfold is_u32; lia).
    assert (0 <= dy * dy) by apply Z.square_nonneg. lia.
  - destruct (Z.eqb_spec dy 0) as [Hy0 | Hy0].
    + subst dy. exists (1024 * dx).
      rewrite u32_small by (unfold is_u32; lia).
      assert (0 <= dx * dx) by apply Z.square_nonneg. lia.
    + destruct (Z.ltb_spec dx dy) as [Hlt | Hge].
      * exists (approx_distance_sum dx dy).
        rewrite approx_distance_ranked by lia.
        destruct (approx_distance_sum_bounds dx dy ltac:(lia))
          as (HN & Hlo & Hhi).
        pose proof (Z.div_mod (approx_distance_sum dx dy + 512) 1024
                      ltac:(lia)).
        pose proof (Z.mod_pos_bound (approx_distance_sum dx dy + 512) 1024
                      ltac:(lia)).
        repeat split; lia.
      * exists (approx_distance_sum dy dx).
        rewrite approx_distance_ranked by lia.
        destruct (approx_distance_sum_bounds dy dx ltac:(lia))
          as (HN & Hlo & Hhi).
        pose proof (Z.div_mod (approx_distance_sum dy dx + 512) 1024
                      ltac:(lia)).
        pose proof (Z.mod_pos_bound (approx_distance_sum dy dx + 512) 1024
                      ltac:(lia)).
        repeat split; lia.
Qed.

(** Comparing an integer with a multiple of a real square root through
    the squares. *)
Lemma scaled_sqrt_le (k n S : Z) :
  0 <= k -> 0 <= n -> 0 <= S -> k * k * S <= n * n ->
  (IZR k * sqrt (IZR S) <= IZR n)%R.
Proof.
  intros Hk Hn HS H.
  assert (HSR : (0 <= IZR S)%R) by (apply IZR_le; exact HS).
  apply Rsqr_incr_0.
  - rewrite Rsqr_mult, Rsqr_sqrt by exact HSR.
    unfold Rsqr. rewrite <- !mult_IZR. apply IZR_le. exact H.
  - apply Rmult_le_pos; [apply IZR_le; exact Hk | apply sqrt_pos].
  - apply IZR_le. exact Hn.
Qed.

Lemma scaled_sqrt_ge (k n S : Z) :
  0 <= k -> 0 <= n -> 0 <= S -> n * n <= k * k * S ->
  (IZR n <= IZR k * sqrt (IZR S))%R.
Proof.
  intros Hk Hn HS H.
  assert (HSR : (0 <= IZR S)%R) by (apply IZR_le; exact HS).
  apply Rsqr_incr_0.
  - rewrite Rsqr_mult, Rsqr_sqrt by exact HSR.
    unfold Rsqr. rewrite <- !mult_IZR. apply IZR_le. exact H.
  - apply IZR_le. exact Hn.
  - apply Rmult_le_pos; [apply IZR_le; exact Hk | apply sqrt_pos].
Qed.

(** X6: for inputs up to 2966137 (where no product or sum leaves 32 bits)
    [approx_distance dx dy] lies between 96.875% of the Euclidean norm less
    a half and 103.81% of it plus a half:
    [992/1024 * d - 1/2 < r <= 1063/1024 * d + 1/2] with
    [d = sqrt (dx^2 + dy^2)]. *)
Theorem approx_distance_error (dx dy : Z) :
  0 <= dx <= 2966137 -> 0 <= dy <= 2966137 ->
  let d := sqrt (IZR (dx * dx + dy * dy)) in
  (992 / 1024 * d - 1 / 2 < IZR (approx_distance dx dy)
   /\ IZR (approx_distance dx dy) <= 1063 / 1024 * d + 1 / 2)%R.
Proof.
  intros Hx Hy. cbv zeta.
  destruct (approx_distance_rounded_sum dx dy Hx Hy)
    as (N & HN & Hlo & Hhi & Hr1 & Hr2).
  assert (HS : 0 <= dx * dx + dy * dy).
  { assert (0 <= dx * dx) by apply Z.square_nonneg.
    assert (0 <= dy * dy) by apply Z.square_nonneg. lia. }
  pose proof (scaled_sqrt_le 992 N _ ltac:(lia) HN HS Hlo) as Hl.
  pose proof (scaled_sqrt_ge 1063 N _ ltac:(lia) HN HS Hhi) as Hh.
  apply IZR_le in Hr1. apply IZR_lt in Hr2.
  rewrite !plus_IZR, !mult_IZR in Hr1.
  rewrite !plus_IZR, !mult_IZR in Hr2.
  set (d := sqrt (IZR (dx * dx + dy * dy))) in *.
  set (r := IZR (approx_distance dx dy)) in *.
  split; lra.
Qed.

Lemma approx_distance_error_witness :
  let d := sqrt (IZR (3000 * 3000 + 4000 * 4000)) in
  (992 / 1024 * d - 1 / 2 < IZR (approx_distance 3000 4000)
   /\ IZR (approx_distance 3000 4000) <= 1063 / 1024 * d + 1 / 2)%R.
Proof. apply (approx_distance_error 3000 4000); lia. Defined.

(** *** The jump at [max = 16 * min] *)

(** X7: [approx_distance] is not monotone: at [max = 16 * min] the
    correction [- 40 * max] sets in, so for every [k] from 3 to 185383 the
    longer vector [(16 k, k + 1)] gets a strictly smaller length than
    [(16 k, k)]. *)
Theorem approx_distance_not_monotone (k : Z) :
  3 <= k <= 185383 ->
  approx_distance (16 * k) (k + 1) < approx_distance (16 * k) k.
Proof.
  intros Hk. unfold approx_distance.
  destruct (Z.eqb_spec (16 * k) 0); [lia|].
  destruct (Z.eqb_spec (k + 1) 0); [lia|].
  destruct (Z.eqb_spec k 0); [lia|]. cbn [orb].
  destruct (Z.ltb_spec (16 * k) (k + 1)); [lia|].
  destruct (Z.ltb_spec (16 * k) k); [lia|].
  rewrite !approx_distance_ranked by lia.
  unfold approx_distance_sum.
  destruct (Z.ltb_spec (16 * k) (16 * (k + 1))); [|lia].
  destruct (Z.ltb_spec (16 * k) (16 * k)); [lia|].
  apply Z.div_lt_upper_bound; [lia|].
  pose proof (Z.div_mod (1007 * (16 * k) + 441 * k + 512) 1024 ltac:(lia)).
  pose proof (Z.mod_pos_bound (1007 * (16 * k) + 441 * k + 512) 1024
                ltac:(lia)).
  lia.
Qed.

Lemma approx_distance_not_monotone_witness :
  approx_distance (16 * 100) (100 + 1) < approx_distance (16 * 100) 100.
Proof. apply (approx_distance_not_monotone 100). lia. Defined.

(** ** More on [approx_distance_3] *)


(** X9: what the comparisons of [approx_distance_3] leave in [min], [med],
    [max]: with [dz] below the larger of [dx], [dy] they are [dz], the
    larger and the smaller; otherwise the larger, the smaller and [dz] (the
    branch [else if (dz < med)] is never taken).  They are in ascending
    order exactly when [dx = dy]. *)
Theorem approx_distance_3_ranks_closed_form (dx dy dz : Z) :
  approx_distance_3_ranks dx dy dz
    = (if dz <? Z.max dx dy then (dz, Z.max dx dy, Z.min dx dy)
       else (Z.max dx dy, Z.min dx dy, dz)) /\
  (let '(min, med, max) := approx_distance_3_ranks dx dy dz in
   min <= med <= max <-> dx = dy).
Proof.
  unfold approx_distance_3_ranks.
  destruct (Z.ltb_spec dx dy) as [Hxy | Hxy].
  - rewrite Z.max_r, Z.min_l by lia.
    destruct (Z.ltb_spec dz dy) as [Hz | Hz]; [split; [reflexivity | lia]|].
    destruct (Z.ltb_spec dz dx) as [Hz' | Hz']; [lia|].
    split; [reflexivity | lia].
  - rewrite Z.max_l, Z.min_r by lia.
    destruct (Z.ltb_spec dz dx) as [Hz | Hz]; [split; [reflexivity | lia]|].
    destruct (Z.ltb_spec dz dy) as [Hz' | Hz']; [lia|].
    split; [reflexivity | lia].
Qed.

(** Drops the reductions to 32 bits, innermost first, where the value is
    in range. *)
Ltac drop_u32 :=
  repeat match goal with
         | |- context [u32 ?z] =>
             lazymatch z with
             | context [u32 _] => fail
             | _ => rewrite (u32_small z) by (unfold is_u32; lia)
             end
         end.

Lemma approx_distance_3_weighted (min med max : Z) :
  0 <= min <= 1925130 -> 0 <= med <= 1925130 -> 0 <= max <= 1925130 ->
  (let approx :=
     u32 (u32 (u32 (max * 860) + u32 (med * 851)) + u32 (min * 520)) in
   let approx :=
     if max <? u32 (Z.shiftl med 1) then u32 (approx - u32 (max * 294))
     else approx in
   let approx :=
     if max <? u32 (Z.shiftl min 2) then u32 (approx - u32 (max * 113))
     else approx in
   let approx :=
     if med <? u32 (Z.shiftl min 2) then u32 (approx - u32 (med * 40))
     else approx in
   Z.shiftr (u32 (approx + 512)) 10)
  = (approx_distance_3_sum min med max + 512) / 1024.
Proof.
  intros Hmin Hmed Hmax. cbv zeta. unfold approx_distance_3_sum.
  rewrite !Z.shiftl_mul_pow2 by lia. change (2 ^ 1) with 2.
  change (2 ^ 2) with 4.
  rewrite (u32_small (med * 2)) by (unfold is_u32; lia).
  rewrite !(u32_small (min * 4)) by (unfold is_u32; lia).
  rewrite (u32_small (max * 860)) by (unfold is_u32; lia).
  rewrite (u32_small (med * 851)) by (unfold is_u32; lia).
  rewrite (u32_small (min * 520)) by (unfold is_u32; lia).
  rewrite (u32_small (max * 294)) by (unfold is_u32; lia).
  rewrite (u32_small (max * 113)) by (unfold is_u32; lia).
  rewrite (u32_small (med * 40)) by (unfold is_u32; lia).
  rewrite (u32_small (max * 860 + med * 851)) by (unfold is_u32; lia).
  rewrite (u32_small (max * 860 + med * 851 + min * 520))
    by (unfold is_u32; lia).
  rewrite Z.shiftr_div_pow2 by lia. change (2 ^ 10) with 1024.
  replace (2 * med) with (med * 2) by ring.
  replace (4 * min) with (min * 4) by ring.
  destruct (max <? med * 2); destruct (max <? min * 4);
    destruct (med <? min * 4);
    drop_u32; f_equal; ring.
Qed.

Lemma approx_distance_3_ranks_bounded (B dx dy dz : Z) :
  0 <= dx <= B -> 0 <= dy <= B -> 0 <= dz <= B ->
  let '(min, med, max) := approx_distance_3_ranks dx dy dz in
  0 <= min <= B /\ 0 <= med <= B /\ 0 <= max <= B.
Proof.
  intros Hx Hy Hz. unfold approx_distance_3_ranks.
  destruct (dx <? dy); destruct (dz <? _); try destruct (dz <? _);
    repeat split; lia.
Qed.

Lemma approx_distance_3_unwrapped (dx dy dz : Z) :
  0 <= dx <= 1925130 -> 0 <= dy <= 1925130 -> 0 <= dz <= 1925130 ->
  approx_distance_3 dx dy dz
    = approx_distance_3_of_ranks (approx_distance_3_ranks dx dy dz).
Proof.
  intros Hx Hy Hz.
  pose proof (approx_distance_3_ranks_bounded 1925130 dx dy dz Hx Hy Hz) as Hb.
  unfold approx_distance_3, approx_distance_3_of_ranks.
  destruct (approx_distance_3_ranks dx dy dz) as [[min med] max].
  destruct Hb as (Hmin & Hmed & Hmax).
  apply approx_distance_3_weighted; assumption.
Qed.

(** Decides every comparison in the goal, dropping the impossible sides. *)
Ltac split_ltb :=
  repeat match goal with
         | |- context [?a <? ?b] =>
             destruct (Z.ltb_spec a b); try lia
         end.

(** X10: [approx_distance_3] has no shortcut for a move along one axis:
    for [4 <= d <= 1925130] it returns [(851 d + 512) / 1024] along X or Y
    and [(860 d + 512) / 1024] along Z, in each case less than [d]. *)
Theorem approx_distance_3_single_axis (d : Z) :
  4 <= d <= 1925130 ->
  approx_distance_3 d 0 0 = (851 * d + 512) / 1024 /\
  approx_distance_3 0 d 0 = (851 * d + 512) / 1024 /\
  approx_distance_3 0 0 d = (860 * d + 512) / 1024 /\
  approx_distance_3 d 0 0 < d /\ approx_distance_3 0 d 0 < d /\
  approx_distance_3 0 0 d < d.
Proof.
  intros Hd.
  assert (Hx : approx_distance_3 d 0 0 = (851 * d + 512) / 1024).
  { rewrite approx_distance_3_unwrapped by lia.
    unfold approx_distance_3_ranks, approx_distance_3_of_ranks,
      approx_distance_3_sum.
    split_ltb. f_equal. ring. }
  assert (Hy : approx_distance_3 0 d 0 = (851 * d + 512) / 1024).
  { rewrite approx_distance_3_unwrapped by lia.
    unfold approx_distance_3_ranks, approx_distance_3_of_ranks,
      approx_distance_3_sum.
    split_ltb. f_equal. ring. }
  assert (Hz : approx_distance_3 0 0 d = (860 * d + 512) / 1024).
  { rewrite approx_distance_3_unwrapped by lia.
    unfold approx_distance_3_ranks, approx_distance_3_of_ranks,
      approx_distance_3_sum.
    split_ltb. f_equal. ring. }
  rewrite Hx, Hy, Hz. repeat split;
    apply Z.div_lt_upper_bound; lia.
Qed.

Lemma approx_distance_3_single_axis_witness :
  approx_distance_3 1000 0 0 = (851 * 1000 + 512) / 1024 /\
  approx_distance_3 0 1000 0 = (851 * 1000 + 512) / 1024 /\
  approx_distance_3 0 0 1000 = (860 * 1000 + 512) / 1024 /\
  approx_distance_3 1000 0 0 < 1000 /\ approx_distance_3 0 1000 0 < 1000 /\
  approx_distance_3 0 0 1000 < 1000.
Proof. apply (approx_distance_3_single_axis 1000). lia. Defined.

Ltac nonneg_product a b :=
  try (assert (0 <= a * b) by (apply Z.mul_nonneg_nonneg; lia)).

Ltac cross_squares p q r S L z :=
  assert (0 <= (p * L - q * S) * (p * L - q * S)) by apply Z.square_nonneg;
  assert (0 <= (p * z - r * S) * (p * z - r * S)) by apply Z.square_nonneg;
  assert (0 <= (q * z - r * L) * (q * z - r * L)) by apply Z.square_nonneg.

Lemma approx_distance_3_sum_class1 (S L z : Z) :
  0 <= S <= L -> L <= z ->
  let N := approx_distance_3_sum L S z in
  0 <= N /\
  850 * 850 * (S * S + L * L + z * z) <= N * N /\
  N * N <= 1155 * 1155 * (S * S + L * L + z * z).
Proof.
  intros HS Hz. cbv zeta. unfold approx_distance_3_sum.
  split_ltb;
    nonneg_product S S; nonneg_product S (L - S); nonneg_product S (z - L);
    nonneg_product (L - S) (L - S); nonneg_product (L - S) (z - L);
    nonneg_product (z - L) (z - L);
    nonneg_product S (2 * S - z); nonneg_product (L - S) (2 * S - z);
    nonneg_product (z - L) (2 * S - z);
    nonneg_product S (z - 2 * S); nonneg_product (L - S) (z - 2 * S);
    nonneg_product (z - L) (z - 2 * S); nonneg_product (z - 2 * S) (z - 2 * S);
    nonneg_product S (4 * L - z); nonneg_product (L - S) (4 * L - z);
    nonneg_product (z - L) (4 * L - z); nonneg_product (z - 2 * S) (4 * L - z);
    nonneg_product S (z - 4 * L); nonneg_product (L - S) (z - 4 * L);
    nonneg_product (z - L) (z - 4 * L); nonneg_product (z - 4 * L) (z - 4 * L);
    cross_squares 595 594 595 S L z;
    cross_squares 461 520 922 S L z;
    cross_squares 265 266 1060 S L z;
    (split; [lia|]); split; try lia.
Qed.

Lemma approx_distance_3_sum_class2 (S L z : Z) :
  0 <= S <= L -> 0 <= z < L ->
  let N := approx_distance_3_sum z L S in
  0 <= N /\
  850 * 850 * (S * S + L * L + z * z) <= N * N /\
  N * N <= 1155 * 1155 * (S * S + L * L + z * z).
Proof.
  intros HS Hz. cbv zeta. unfold approx_distance_3_sum.
  split_ltb;
    nonneg_product S S; nonneg_product S (L - S); nonneg_product S z;
    nonneg_product S (L - z);
    nonneg_product (L - S) (L - S); nonneg_product (L - S) z;
    nonneg_product (L - S) (L - z);
    nonneg_product z z; nonneg_product z (L - z);
    nonneg_product (L - z) (L - z);
    nonneg_product S (S - 4 * z); nonneg_product (L - S) (S - 4 * z);
    nonneg_product z (S - 4 * z); nonneg_product (L - z) (S - 4 * z);
    nonneg_product (S - 4 * z) (S - 4 * z);
    nonneg_product S (4 * z - S); nonneg_product (L - S) (4 * z - S);
    nonneg_product z (4 * z - S); nonneg_product (L - z) (4 * z - S);
    nonneg_product S (L - 4 * z); nonneg_product (L - S) (L - 4 * z);
    nonneg_product z (L - 4 * z); nonneg_product (L - z) (L - 4 * z);
    nonneg_product (4 * z - S) (L - 4 * z);
    nonneg_product (L - 4 * z) (L - 4 * z);
    nonneg_product S (4 * z - L); nonneg_product (L - S) (4 * z - L);
    nonneg_product z (4 * z - L); nonneg_product (L - z) (4 * z - L);
    cross_squares 655 851 164 S L z;
    cross_squares 453 923 232 S L z;
    cross_squares 453 811 520 S L z;
    (split; [lia|]); split; lia.
Qed.

Lemma approx_distance_3_rounded_sum (dx dy dz : Z) :
  0 <= dx <= 1925130 -> 0 <= dy <= 1925130 -> 0 <= dz <= 1925130 ->
  exists N,
    0 <= N /\
    850 * 850 * (dx * dx + dy * dy + dz * dz) <= N * N /\
    N * N <= 1155 * 1155 * (dx * dx + dy * dy + dz * dz) /\
    1024 * approx_distance_3 dx dy dz <= N + 512
      < 1024 * approx_distance_3 dx dy dz + 1024.
Proof.
  intros Hx Hy Hz.
  rewrite approx_distance_3_unwrapped by assumption.
  assert (Hround : forall N, 1024 * ((N + 512) / 1024) <= N + 512
                             < 1024 * ((N + 512) / 1024) + 1024).
  { intros N. pose proof (Z.div_mod (N + 512) 1024 ltac:(lia)).
    pose proof (Z.mod_pos_bound (N + 512) 1024 ltac:(lia)). lia. }
  unfold approx_distance_3_ranks.
  destruct (Z.ltb_spec dx dy) as [Hxy | Hxy].
  - destruct (Z.ltb_spec dz dy) as [Hzy | Hzy].
    + exists (approx_distance_3_sum dz dy dx).
      destruct (approx_distance_3_sum_class2 dx dy dz ltac:(lia) ltac:(lia))
        as (HN & Hlo & Hhi).
      repeat split; try apply Hround; lia.
    + destruct (Z.ltb_spec dz dx) as [Hzx | Hzx]; [lia|].
      exists (approx_distance_3_sum dy dx dz).
      destruct (approx_distance_3_sum_class1 dx dy dz ltac:(lia) ltac:(lia))
        as (HN & Hlo & Hhi).
      repeat split; try apply Hround; lia.
  - destruct (Z.ltb_spec dz dx) as [Hzx | Hzx].
    + exists (approx_distance_3_sum dz dx dy).
      destruct (approx_distance_3_sum_class2 dy dx dz ltac:(lia) ltac:(lia))
        as (HN & Hlo & Hhi).
      repeat split; try apply Hround; lia.
    + destruct (Z.ltb_spec dz dy) as [Hzy | Hzy]; [lia|].
      exists (approx_distance_3_sum dx dy dz).
      destruct (approx_distance_3_sum_class1 dy dx dz ltac:(lia) ltac:(lia))
        as (HN & Hlo & Hhi).
      repeat split; try apply Hround; lia.
Qed.

(** X11: for inputs up to 1925130 (where no product or sum leaves 32 bits)
    [approx_distance_3 dx dy dz] lies between 83% of the Euclidean norm
    less a half and 112.8% of it plus a half, in whatever order the
    arguments come:
    [850/1024 * d - 1/2 < r <= 1155/1024 * d + 1/2] with
    [d = sqrt (dx^2 + dy^2 + dz^2)]. *)
Theorem approx_distance_3_error (dx dy dz : Z) :
  0 <= dx <= 1925130 -> 0 <= dy <= 1925130 -> 0 <= dz <= 1925130 ->
  let d := sqrt (IZR (dx * dx + dy * dy + dz * dz)) in
  (850 / 1024 * d - 1 / 2 < IZR (approx_distance_3 dx dy dz)
   /\ IZR (approx_distance_3 dx dy dz) <= 1155 / 1024 * d + 1 / 2)%R.
Proof.
  intros Hx Hy Hz. cbv zeta.
  destruct (approx_distance_3_rounded_sum dx dy dz Hx Hy Hz)
    as (N & HN & Hlo & Hhi & Hr1 & Hr2).
  assert (HS : 0 <= dx * dx + dy * dy + dz * dz).
  { assert (0 <= dx * dx) by apply Z.square_nonneg.
    assert (0 <= dy * dy) by apply Z.square_nonneg.
    assert (0 <= dz * dz) by apply Z.square_nonneg. lia. }
  pose proof (scaled_sqrt_le 850 N _ ltac:(lia) HN HS Hlo) as Hl.
  pose proof (scaled_sqrt_ge 1155 N _ ltac:(lia) HN HS Hhi) as Hh.
  apply IZR_le in Hr1. apply IZR_lt in Hr2.
  rewrite !plus_IZR, !mult_IZR in Hr1.
  rewrite !plus_IZR, !mult_IZR in Hr2.
  set (d := sqrt (IZR (dx * dx + dy * dy + dz * dz))) in *.
  set (r := IZR (approx_distance_3 dx dy dz)) in *.
  split; lra.
Qed.

Lemma approx_distance_3_error_witness :
  let d := sqrt (IZR (1000 * 1000 + 2000 * 2000 + 3000 * 3000)) in
  (850 / 1024 * d - 1 / 2 < IZR (approx_distance_3 1000 2000 3000)
   /\ IZR (approx_distance_3 1000 2000 3000) <= 1155 / 1024 * d + 1 / 2)%R.
Proof. apply (approx_distance_3_error 1000 2000 3000); lia. Defined.

(** ** More on [int_sqrt] *)

(** X12: [int_sqrt] undoes squaring: [int_sqrt (x * x) = x] for every
    16-bit [x]. *)
Theorem int_sqrt_of_square (x : Z) :
  0 <= x < 2 ^ 16 -> int_sqrt (x * x) = x.
Proof.
  intros Hx.
  assert (Ha : is_u32 (x * x)) by (unfold is_u32; nia).
  destruct (int_sqrt_root (x * x) Ha) as (Hr & _ & Hlo & Hhi).
  change (2 ^ 0) with 1 in Hhi. nia.
Qed.

Lemma int_sqrt_of_square_witness : int_sqrt (46341 * 46341) = 46341.
Proof. apply (int_sqrt_of_square 46341). lia. Defined.

(** X13: [int_sqrt] is non-decreasing over the 32-bit inputs, and its
    result is a 16-bit value. *)
Theorem int_sqrt_monotone (a b : Z) :
  is_u32 a -> is_u32 b -> a <= b ->
  0 <= int_sqrt a <= int_sqrt b /\ int_sqrt b < 2 ^ 16.
Proof.
  intros Ha Hb Hab.
  destruct (int_sqrt_root a Ha) as (Hra & _ & Hloa & Hhia).
  destruct (int_sqrt_root b Hb) as (Hrb & _ & Hlob & Hhib).
  change (2 ^ 0) with 1 in Hhia, Hhib. unfold is_u32 in *.
  split; [split|]; nia.
Qed.

Lemma int_sqrt_monotone_witness :
  0 <= int_sqrt 99 <= int_sqrt 100 /\ int_sqrt 100 < 2 ^ 16.
Proof. apply (int_sqrt_monotone 99 100); unfold is_u32; lia. Defined.

(** ** More on [int_inv_sqrt] *)

(** X14: over the non-zero 16-bit inputs [int_inv_sqrt] returns a result,
    is non-increasing, and stays between 16 and 4095. *)
Theorem int_inv_sqrt_antitone (a b : Z) :
  0 < a -> a <= b -> b < 2 ^ 16 ->
  exists xa xb,
    int_inv_sqrt a = Some xa /\ int_inv_sqrt b = Some xb /\
    16 <= xb /\ xb <= xa /\ xa <= 4095.
Proof.
  intros Ha Hab Hb.
  destruct (int_inv_sqrt_root a ltac:(lia))
    as (xa & Hxa & Hxa0 & _ & Hloa & Hhia).
  destruct (int_inv_sqrt_root b ltac:(lia))
    as (xb & Hxb & Hxb0 & _ & Hlob & Hhib).
  destruct (int_inv_sqrt_q_eq a ltac:(lia)) as (_ & Hqa & Hra).
  destruct (int_inv_sqrt_q_eq b ltac:(lia)) as (_ & Hqb & Hrb).
  rewrite Hqa in Hloa, Hhia. rewrite Hqb in Hlob, Hhib.
  change (2 ^ 0) with 1 in Hhia, Hhib. change (2 ^ 8) with 256 in *.
  assert (Hmono : 65535 / b <= 65535 / a)
    by (apply Z.div_le_compat_l; lia).
  exists xa, xb. split; [exact Hxa|]. split; [exact Hxb|].
  set (qa := 65535 / a) in *. set (qb := 65535 / b) in *.
  repeat split; nia.
Qed.

Lemma int_inv_sqrt_antitone_witness :
  exists xa xb,
    int_inv_sqrt 100 = Some xa /\ int_inv_sqrt 400 = Some xb /\
    16 <= xb /\ xb <= xa /\ xa <= 4095.
Proof. apply (int_inv_sqrt_antitone 100 400); lia. Defined.

(** X15: for every [a] from 32768 up to 65535 [int_inv_sqrt a] is 16: the
    16-bit reciprocal [0xFFFF / a] is 1 there. *)
Theorem int_inv_sqrt_plateau (a : Z) :
  2 ^ 15 <= a < 2 ^ 16 -> int_inv_sqrt a = Some 16.
Proof.
  intros Ha.
  destruct (int_inv_sqrt_root a ltac:(lia)) as (x & Hx & Hx0 & _ & Hlo & Hhi).
  destruct (int_inv_sqrt_q_eq a ltac:(lia)) as (_ & Hq & Hr).
  assert (H1 : 65535 / a = 1).
  { symmetry. apply (Z.div_unique 65535 a 1 (65535 - a)); lia. }
  rewrite Hq, H1 in Hlo, Hhi. change (2 ^ 0) with 1 in Hhi.
  change (1 * 2 ^ 8) with 256 in *.
  rewrite Hx. f_equal. nia.
Qed.

Lemma int_inv_sqrt_plateau_witness : int_inv_sqrt 40000 = Some 16.
Proof. apply (int_inv_sqrt_plateau 40000). lia. Defined.

(** X18: [int_inv_sqrt] is [int_sqrt] of the shifted 16-bit reciprocal: for
    every non-zero 16-bit [a],
    [int_inv_sqrt a = int_sqrt ((0xFFFF / a) << 8)]. *)
Theorem int_inv_sqrt_is_int_sqrt (a : Z) :
  0 < a < 2 ^ 16 ->
  int_inv_sqrt a = Some (int_sqrt (Z.shiftl (65535 / a) 8)).
Proof.
  intros Ha.
  destruct (int_inv_sqrt_root a Ha) as (x & Hx & Hx0 & _ & Hlo & Hhi).
  destruct (int_inv_sqrt_q_eq a Ha) as (Hq & Hq' & Hr).
  rewrite <- Hq.
  assert (Hu : is_u32 (int_inv_sqrt_q a)).
  { rewrite Hq'. unfold is_u32. change (2 ^ 8) with 256. lia. }
  destruct (int_sqrt_root _ Hu) as (Hy0 & _ & Hlo' & Hhi').
  change (2 ^ 0) with 1 in Hhi, Hhi'.
  rewrite Hx. f_equal.
  set (q := int_inv_sqrt_q a) in *. set (y := int_sqrt q) in *.
  nia.
Qed.

Lemma int_inv_sqrt_is_int_sqrt_witness :
  int_inv_sqrt 3 = Some (int_sqrt (Z.shiftl (65535 / 3) 8)).
Proof. apply (int_inv_sqrt_is_int_sqrt 3). lia. Defined.

(** ** More on [int_sqr] *)

(** X16: for a 32-bit [a], [int_sqr a] is the square of [a] exactly when
    [|a| <= 46340], i.e. when the square fits in an [int32_t]. *)
Theorem int_sqr_exact_iff (a : Z) :
  is_i32 a -> (int_sqr a = a * a <-> - 46340 <= a <= 46340).
Proof.
  unfold is_i32. intros Ha. split.
  - intros Heq.
    assert (Hrange : - 2 ^ 31 <= int_sqr a < 2 ^ 31).
    { unfold int_sqr.
      assert (Hi : - 2 ^ 31 <= i32 (a * a) < 2 ^ 31).
      { unfold i32.
        pose proof (Z.mod_pos_bound (a * a + 2 ^ 31) (2 ^ 32) ltac:(lia)).
        lia. }
      rewrite i64_small by lia. exact Hi. }
    rewrite Heq in Hrange. nia.
  - apply int_sqr_small.
Qed.

Lemma int_sqr_exact_iff_witness :
  int_sqr 46340 = 46340 * 46340 <-> - 46340 <= 46340 <= 46340.
Proof. apply (int_sqr_exact_iff 46340). unfold is_i32. lia. Defined.

(** ** More on [acc_ramp_len] *)

(** X17: [acc_ramp_len] divides by zero exactly when [steps_per_m] is 0 or
    exceeds the scaled acceleration [(uint32_t)7200000 * ACCELERATION]. *)
Theorem acc_ramp_len_no_result_iff (ACCELERATION feedrate steps_per_m : Z) :
  is_u32 steps_per_m ->
  (acc_ramp_len ACCELERATION feedrate steps_per_m = None <->
   steps_per_m = 0 \/ u32 (7200000 * ACCELERATION) < steps_per_m).
Proof.
  unfold is_u32, acc_ramp_len. intros Hs.
  pose proof (u32_range (7200000 * ACCELERATION)) as Hu. unfold is_u32 in Hu.
  set (U := u32 (7200000 * ACCELERATION)) in *.
  destruct (Z.eqb_spec steps_per_m 0) as [H0 | H0].
  - split; [left; exact H0 | reflexivity].
  - destruct (Z.eqb_spec (U / steps_per_m) 0) as [Hd | Hd].
    + split; [|reflexivity]. intros _. right.
      apply Z.div_small_iff in Hd; lia.
    + split; [discriminate|]. intros [Hz | Hlt]; [lia|].
      exfalso. apply Hd. apply Z.div_small. lia.
Qed.

Lemma acc_ramp_len_no_result_iff_witness :
  acc_ramp_len 1 100 7200001 = None <->
  7200001 = 0 \/ u32 (7200000 * 1) < 7200001.
Proof.
  apply (acc_ramp_len_no_result_iff 1 100 7200001). unfold is_u32. lia.
Defined.
